(** * lrucache: a size-bounded key-value cache with per-item TTL

    A shallow embedding of the Go package [lrucache]
    (lrucache.go, expiration_heap.go, cache_item.go, serde.go, errors.go)
    and the properties of its specification.

    Conventions of the embedding.
    - A [time.Time] is an integer count of nanoseconds on one time line
      whose origin is Go's zero [time.Time]; [Before], [After] and [Add]
      are [<], [>] and [+].  A [time.Duration] is an integer as well.
    - [time.Now()] is an argument [now] of every operation that reads the
      clock.
    - A [[]byte] and a Go [string] are both sequences of bytes: [string].
    - The mutex is left out: operations are modelled one at a time.
    - A call of [Options.EvictCallback] is an entry [(key, value)] of the
      list of calls an operation returns next to the new state.
    - [l.log] only prints; it is left out.
    - The packages the code imports are modelled by what they do on the
      calls the code makes: [strconv], [fmt] and [container/heap] from
      the Go standard library, and [go-memdb] with the single table
      "cache" indexed by the string field [Key]. *)

From Corelib Require PrimFloat.
From Stdlib Require Import ZArith String Ascii List Lia.
From stdpp Require Import base gmap strings list fin_maps.

(** ** strconv and fmt on integers and booleans *)

Module strconv.

(** [int] is 64 bits wide. *)
Definition minInt : Z := (- 2 ^ 63)%Z.
Definition maxInt : Z := (2 ^ 63 - 1)%Z.

(** [ch -= '0'; if ch > 9 { syntax error }] *)
Definition digit_val (c : ascii) : option Z :=
  let n := Z.of_N (N_of_ascii c) in
  if ((48 <=? n) && (n <=? 57))%Z then Some (n - 48)%Z else None.

(** [n = n*10 + int(ch)] over the bytes of [s]. *)
Fixpoint parse_digits (s : string) (n : Z) : option Z :=
  match s with
  | EmptyString => Some n
  | String c s' =>
      match digit_val c with
      | None => None
      | Some d => parse_digits s' (n * 10 + d)%Z
      end
  end.

(** [strconv.Atoi]: an optional sign, then one or more decimal digits,
    and a value that fits [int]; [None] is a non-nil error. *)
Definition Atoi (s : string) : option Z :=
  match s with
  | EmptyString => None
  | String c rest =>
      let neg := Ascii.eqb c "-" in
      let body := if neg || Ascii.eqb c "+" then rest else s in
      match body with
      | EmptyString => None
      | _ =>
          match parse_digits body 0 with
          | None => None
          | Some n =>
              let v := if neg then (- n)%Z else n in
              if ((minInt <=? v) && (v <=? maxInt))%Z then Some v else None
          end
      end
  end.

(** [strconv.ParseBool] *)
Definition ParseBool (str : string) : option bool :=
  if existsb (String.eqb str) ["1"; "t"; "T"; "true"; "TRUE"; "True"]%string
  then Some true
  else if existsb (String.eqb str) ["0"; "f"; "F"; "false"; "FALSE"; "False"]%string
  then Some false
  else None.

End strconv.

Module fmt.

Definition digit_char (d : Z) : ascii := ascii_of_N (Z.to_N (48 + d)).

(** The decimal digits of [n >= 0], most significant first. *)
Fixpoint digits (fuel : nat) (n : Z) : string :=
  match fuel with
  | O => EmptyString
  | S fuel' =>
      if (n <? 10)%Z then String (digit_char n) EmptyString
      else digits fuel' (n / 10)%Z +:+ String (digit_char (n mod 10)%Z) EmptyString
  end.

(** [fmt.Sprintf("%d", v)] *)
Definition Sprintf_d (v : Z) : string :=
  let n := Z.abs v in
  let s := digits (S (Z.to_nat (Z.log2 n))) n in
  if (v <? 0)%Z then String "-" s else s.

(** [fmt.Sprintf("%t", v)] *)
Definition Sprintf_t (v : bool) : string :=
  if v then "true"%string else "false"%string.

End fmt.

(** ** cache_item.go *)

Record CacheItem := {
  Key : string;
  Value : string;
  ExpiresAt : Z
}.

(** ** go-memdb: the table "cache" with the unique string index "id" on [Key] *)

Module memdb.

Inductive error :=
| ErrNotFound              (* "not found" *)
| ErrMissingPrimaryIndex.  (* "object missing primary index" *)

(** [StringFieldIndex.FromObject] gives no index value for an empty
    string, and [Txn.Insert] refuses an object without one; another
    object under the same key is replaced. *)
Definition Insert (t : gmap string CacheItem) (obj : CacheItem)
  : gmap string CacheItem + error :=
  if String.eqb (Key obj) "" then inr ErrMissingPrimaryIndex
  else inl (<[Key obj := obj]> t).

(** [Txn.First(table, "id", key)]: the object under [key], or nil. *)
Definition First (t : gmap string CacheItem) (key : string) : option CacheItem :=
  t !! key.

(** [Txn.Delete]: the object must be in the table ([ErrNotFound]
    otherwise); it is found by its primary index. *)
Definition Delete (t : gmap string CacheItem) (obj : CacheItem)
  : gmap string CacheItem + error :=
  if String.eqb (Key obj) "" then inr ErrMissingPrimaryIndex
  else match t !! Key obj with
       | None => inr ErrNotFound
       | Some _ => inl (delete (Key obj) t)
       end.

(** [Txn.Get(table, "id")]: an iterator over a snapshot of all rows. *)
Definition Get (t : gmap string CacheItem) : list CacheItem :=
  (map_to_list t).*2.

End memdb.

(** ** expiration_heap.go *)

Record expirationHeap := {
  items : list string;
  expiresAt : gmap string Z
}.

Module expirationHeap.

(** [h.expiresAt[k]]: reading a Go map at an absent key gives the zero
    value, here the zero [time.Time]. *)
Definition at_ (h : expirationHeap) (k : string) : Z :=
  default 0%Z (expiresAt h !! k).

Definition Len (h : expirationHeap) : nat := length (items h).

(** Indices out of range panic in Go; [container/heap] never passes
    one, and the embedding answers [false]. *)
Definition Less (h : expirationHeap) (i j : nat) : bool :=
  match items h !! i, items h !! j with
  | Some a, Some b => (at_ h a <? at_ h b)%Z
  | _, _ => false
  end.

Definition Swap (h : expirationHeap) (i j : nat) : expirationHeap :=
  match items h !! i, items h !! j with
  | Some a, Some b =>
      {| items := <[i := b]> (<[j := a]> (items h)); expiresAt := expiresAt h |}
  | _, _ => h
  end.

Definition Push (h : expirationHeap) (x : string) : expirationHeap :=
  {| items := items h ++ [x]; expiresAt := expiresAt h |}.

(** [x := old[n-1]; h.items = old[0 : n-1]]; [None] on an empty slice,
    where Go panics. *)
Definition Pop (h : expirationHeap) : option (string * expirationHeap) :=
  match last (items h) with
  | None => None
  | Some x =>
      Some (x, {| items := take (length (items h) - 1) (items h);
                  expiresAt := expiresAt h |})
  end.

End expirationHeap.

(** ** container/heap on an [expirationHeap] *)

Module heap.
Import expirationHeap.

(** The loop of [up(h, j)].  Every round moves [j] to its parent, so
    [S j] rounds are enough ([up_loop_fuel] below). *)
Fixpoint up_loop (fuel : nat) (h : expirationHeap) (j : nat) : expirationHeap :=
  match fuel with
  | O => h
  | S fuel' =>
      let i := (j - 1) / 2 in (* parent; in Go (0 - 1) / 2 is 0 as well *)
      if (i =? j) || negb (Less h j i) then h
      else up_loop fuel' (Swap h i j) i
  end.

Definition up (h : expirationHeap) (j : nat) : expirationHeap :=
  up_loop (S j) h j.

(** The loop of [down(h, i0, n)], without the boolean it returns (no
    caller here reads it).  Every round moves [i] to a child below
    [n], so [n] rounds are enough. *)
Fixpoint down_loop (fuel : nat) (h : expirationHeap) (i n : nat) : expirationHeap :=
  match fuel with
  | O => h
  | S fuel' =>
      let j1 := 2 * i + 1 in
      if n <=? j1 then h
      else
        let j2 := j1 + 1 in
        let j := if (j2 <? n) && Less h j2 j1 then j2 else j1 in
        if negb (Less h j i) then h
        else down_loop fuel' (Swap h i j) j n
  end.

Definition down (h : expirationHeap) (i0 n : nat) : expirationHeap :=
  down_loop n h i0 n.

(** [heap.Push(h, x)] *)
Definition Push (h : expirationHeap) (x : string) : expirationHeap :=
  let h1 := expirationHeap.Push h x in
  up h1 (Len h1 - 1).

(** [heap.Pop(h)]; [None] on an empty heap, where Go panics. *)
Definition Pop (h : expirationHeap) : option (string * expirationHeap) :=
  match Len h with
  | O => None
  | S n => expirationHeap.Pop (down (Swap h 0 n) 0 n)
  end.

End heap.

(** ** Values, errors and calls of the eviction callback *)

(** A Go value handed to [Set] as an [interface{}], by the cases of the
    type switch in [serialize].  A [float32] is held as the [float64] it
    converts to.  A value of any other type reaches the [default] case,
    where the code only reads what [json.Marshal] makes of it: it is
    held as that result, [None] when [json.Marshal] fails.  [VNil] is
    the nil interface, which [json.Marshal] encodes as "null". *)
Inductive value :=
| VNil
| VString (s : string)
| VBytes (b : string)
| VInt (i : Z)
| VInt32 (i : Z)
| VInt64 (i : Z)
| VFloat32 (f : PrimFloat.float)
| VFloat64 (f : PrimFloat.float)
| VBool (b : bool)
| VOther (marshalled : option string).

Inductive error :=
| ErrCacheNotInitialized          (* errors.go *)
| ErrItemExpired
| ErrItemNotFound
| ErrSizeNotPositive              (* "cache size must be positive" *)
| ErrTTLNotPositive               (* "ttl must be positive" *)
| ErrSerialize                    (* "failed to serialize value: ..." *)
| ErrDeserialize                  (* "failed to deserialize value: ..." *)
| ErrInsert (e : memdb.error)     (* "failed to insert item: ..." *)
| ErrDelete (e : memdb.error).    (* "failed to delete item: ..." *)

(** One call [EvictCallback(key, value)]. *)
Definition call : Type := string * value.

Record Options := {
  LogLevel : string;
  EvictCallback : bool   (* whether [opts.EvictCallback != nil] *)
}.

Record LRU := {
  db : gmap string CacheItem;
  size : Z;
  opts : Options;
  expHeap : expirationHeap
}.

Definition with_db (l : LRU) (t : gmap string CacheItem) : LRU :=
  {| db := t; size := size l; opts := opts l; expHeap := expHeap l |}.

Definition with_expHeap (l : LRU) (h : expirationHeap) : LRU :=
  {| db := db l; size := size l; opts := opts l; expHeap := h |}.

(** [delete(l.expHeap.expiresAt, key)] *)
Definition delete_expiresAt (l : LRU) (key : string) : LRU :=
  with_expHeap l {| items := items (expHeap l);
                    expiresAt := delete key (expiresAt (expHeap l)) |}.

(** ** lrucache.go: the operations that do not touch the codec *)

(** The result of [NewLRUWithTTL] when it returns.  The allocation
    [make([]string, 0, size)] is taken to succeed: for a size beyond
    what the allocator accepts Go panics there and returns nothing, so
    no property below says that a cache is returned for every size. *)
Definition NewLRUWithTTL (size : Z) (opts : Options) : LRU + error :=
  if (size <=? 0)%Z then inr ErrSizeNotPositive
  else inl {| db := ∅; size := size; opts := opts;
              expHeap := {| items := []; expiresAt := ∅ |} |}.

Definition removeItem (l : LRU) (key : string) : LRU * list call :=
  match memdb.Delete (db l) {| Key := key; Value := ""; ExpiresAt := 0 |} with
  | inr _ => (l, [])     (* txn.Abort(); log; return *)
  | inl t =>
      (delete_expiresAt (with_db l t) key,
       if EvictCallback (opts l) then [(key, VNil)] else [])
  end.

(** [for l.expHeap.Len() > l.size { evictKey := heap.Pop(..); l.removeItem(evictKey) }].
    Every round pops one key, so [Len] rounds are enough. *)
Fixpoint evict_loop (fuel : nat) (l : LRU) : LRU * list call :=
  match fuel with
  | O => (l, [])
  | S fuel' =>
      if (Z.of_nat (expirationHeap.Len (expHeap l)) >? size l)%Z then
        match heap.Pop (expHeap l) with
        | None => (l, [])
        | Some (evictKey, h) =>
            let '(l1, c1) := removeItem (with_expHeap l h) evictKey in
            let '(l2, c2) := evict_loop fuel' l1 in
            (l2, c1 ++ c2)
        end
      else (l, [])
  end.

Definition evict (l : LRU) : LRU * list call :=
  evict_loop (expirationHeap.Len (expHeap l)) l.

(** The loop of [removeExpiredItems], with [now] read once before it. *)
Fixpoint sweep_loop (fuel : nat) (l : LRU) (now : Z) : LRU * list call :=
  match fuel with
  | O => (l, [])
  | S fuel' =>
      match items (expHeap l) with
      | [] => (l, [])
      | k0 :: _ =>
          if (expirationHeap.at_ (expHeap l) k0 <? now)%Z then
            match heap.Pop (expHeap l) with
            | None => (l, [])
            | Some (key, h) =>
                let '(l1, c1) := removeItem (with_expHeap l h) key in
                let '(l2, c2) := sweep_loop fuel' l1 now in
                (l2, c1 ++ c2)
            end
          else (l, [])
      end
  end.

Definition removeExpiredItems (l : LRU) (now : Z) : LRU * list call :=
  sweep_loop (expirationHeap.Len (expHeap l)) l now.

Definition LRU_Delete (l : LRU) (key : string) : LRU * list call * option error :=
  (* txn.First only fails on an unknown table or index *)
  match memdb.Delete (db l) {| Key := key; Value := ""; ExpiresAt := 0 |} with
  | inr e => (l, [], Some (ErrDelete e))
  | inl t => (delete_expiresAt (with_db l t) key, [], None)
  end.

(** The loop of [Clear] inside its transaction: delete every row the
    iterator yields, stop at the first failure. *)
Fixpoint delete_rows (t : gmap string CacheItem) (rows : list CacheItem)
  : gmap string CacheItem + memdb.error :=
  match rows with
  | [] => inl t
  | item :: rows' =>
      match memdb.Delete t item with
      | inr e => inr e
      | inl t' => delete_rows t' rows'
      end
  end.

Definition LRU_Clear (l : LRU) : LRU * list call * option error :=
  match delete_rows (db l) (memdb.Get (db l)) with
  | inr e => (l, [], Some (ErrDelete e))
  | inl t =>
      (with_expHeap (with_db l t) {| items := []; expiresAt := ∅ |}, [], None)
  end.

Definition LRU_Len (l : LRU) : nat := length (memdb.Get (db l)).

(** ** serde.go and the operations that encode and decode *)

Section Codec.

(** What the model takes from Go's library as it is:
    [fmt.Sprintf("%f", v)] on a [float32] and on a [float64],
    [strconv.ParseFloat(s, 64)] and [json.Unmarshal] into an
    [interface{}] ([None]: a non-nil error). *)
Variable Sprintf_f32 : PrimFloat.float -> string.
Variable Sprintf_f64 : PrimFloat.float -> string.
Variable ParseFloat : string -> option PrimFloat.float.
Variable json_Unmarshal : string -> option value.

Definition serialize (v : value) : option string :=
  match v with
  | VString s => Some s
  | VBytes b => Some b
  | VInt i => Some (fmt.Sprintf_d i)
  | VInt32 i => Some (fmt.Sprintf_d i)
  | VInt64 i => Some (fmt.Sprintf_d i)
  | VFloat32 f => Some (Sprintf_f32 f)
  | VFloat64 f => Some (Sprintf_f64 f)
  | VBool b => Some (fmt.Sprintf_t b)
  | VNil => Some "null"%string
  | VOther marshalled => marshalled
  end.

Definition deserialize (data : string) : value + error :=
  match strconv.Atoi data with
  | Some i => inl (VInt i)
  | None =>
      match ParseFloat data with
      | Some f => inl (VFloat64 f)
      | None =>
          match strconv.ParseBool data with
          | Some b => inl (VBool b)
          | None =>
              match json_Unmarshal data with
              | Some v => inl v
              | None => inl (VString data)
              end
          end
      end
  end.

Definition LRU_Set (l : LRU) (key : string) (v : value) (ttl now : Z)
  : LRU * list call * option error :=
  if (ttl <=? 0)%Z then (l, [], Some ErrTTLNotPositive)
  else
    let expires := (now + ttl)%Z in
    match serialize v with
    | None => (l, [], Some ErrSerialize)
    | Some data =>
        let item := {| Key := key; Value := data; ExpiresAt := expires |} in
        match memdb.Insert (db l) item with
        | inr e => (l, [], Some (ErrInsert e))     (* txn.Abort() *)
        | inl t =>
            let h := expHeap l in
            let h1 := {| items := items h;
                         expiresAt := <[key := expires]> (expiresAt h) |} in
            let '(l', calls) :=
              evict (with_expHeap (with_db l t) (heap.Push h1 key)) in
            (l', calls, None)
        end
    end.

Definition LRU_Get (l : LRU) (key : string) (now : Z)
  : LRU * list call * (value + error) :=
  match memdb.First (db l) key with
  | None => (l, [], inr ErrItemNotFound)
  | Some item =>
      if (now >? ExpiresAt item)%Z then
        let '(l', calls) := removeItem l key in
        (l', calls, inr ErrItemExpired)
      else
        match deserialize (Value item) with
        | inr _ => (l, [], inr ErrDeserialize)
        | inl v => (l, [], inl v)
        end
  end.

(** The public operations and the background sweep, one call each. *)
Inductive op :=
| OpSet (key : string) (v : value) (ttl : Z)
| OpGet (key : string)
| OpDelete (key : string)
| OpClear
| OpSweep.

(** The state and the callback calls of one operation run at [now]. *)
Definition run (l : LRU) (o : op) (now : Z) : LRU * list call :=
  match o with
  | OpSet key v ttl => (LRU_Set l key v ttl now).1
  | OpGet key => (LRU_Get l key now).1
  | OpDelete key => (LRU_Delete l key).1
  | OpClear => (LRU_Clear l).1
  | OpSweep => removeExpiredItems l now
  end.

(** The states a cache built by [NewLRUWithTTL] can be in between two
    operations. *)
Inductive reachable : LRU -> Prop :=
| reachable_new size opts l :
    NewLRUWithTTL size opts = inl l -> reachable l
| reachable_run l o now :
    reachable l -> reachable (run l o now).1.


(** The precedence of [decode] as the specification words it: integer,
    then floating point, then boolean, then the structured format,
    else the raw text. *)
Inductive decodes_as (data : string) : value -> Prop :=
| decodes_int i :
    strconv.Atoi data = Some i -> decodes_as data (VInt i)
| decodes_float f :
    strconv.Atoi data = None -> ParseFloat data = Some f ->
    decodes_as data (VFloat64 f)
| decodes_bool b :
    strconv.Atoi data = None -> ParseFloat data = None ->
    strconv.ParseBool data = Some b -> decodes_as data (VBool b)
| decodes_json v :
    strconv.Atoi data = None -> ParseFloat data = None ->
    strconv.ParseBool data = None -> json_Unmarshal data = Some v ->
    decodes_as data v
| decodes_text :
    strconv.Atoi data = None -> ParseFloat data = None ->
    strconv.ParseBool data = None -> json_Unmarshal data = None ->
    decodes_as data (VString data).


(** *** Predicates the properties are stated with *)

(** What holds of the store and the expiry index between operations:
    every stored key is non-empty, is the [Key] of its item, has the
    item's [ExpiresAt] in the [expiresAt] map and occurs in the heap's
    [items]; the [expiresAt] map has no other key. *)
Definition cache_inv (l : LRU) : Prop :=
  (0 < size l)%Z /\
  (forall k it, db l !! k = Some it ->
     k <> ""%string /\ Key it = k /\
     expiresAt (expHeap l) !! k = Some (ExpiresAt it) /\
     k ∈ items (expHeap l)) /\
  (forall k, db l !! k = None -> expiresAt (expHeap l) !! k = None).

(** The heap condition of [container/heap] for [Less]: no element is
    less than its parent. *)
Definition heap_ordered (h : expirationHeap) : Prop :=
  forall j a b, 0 < j ->
    items h !! j = Some b -> items h !! ((j - 1) / 2) = Some a ->
    (expirationHeap.at_ h a <= expirationHeap.at_ h b)%Z.

(** [heap.Pop] until the heap is empty: the keys in the order they
    come out. *)
Fixpoint pop_all (fuel : nat) (h : expirationHeap) : list string :=
  match fuel with
  | O => []
  | S fuel' =>
      match heap.Pop h with
      | None => []
      | Some (k, h') => k :: pop_all fuel' h'
      end
  end.

(** One call [Set(key, value, ttl)] with the clock at [now]. *)
Record set_call := {
  set_key : string;
  set_value : value;
  set_ttl : Z;
  set_now : Z
}.

Definition set_expires (s : set_call) : Z := (set_now s + set_ttl s)%Z.

(** A [Set] that no check of the code refuses. *)
Definition valid_set (s : set_call) : Prop :=
  set_key s <> ""%string /\ (0 < set_ttl s)%Z /\
  is_Some (serialize (set_value s)).

(** The calls of a list in turn: the final state, all callback calls,
    and the error of each [Set]. *)
Fixpoint set_all (l : LRU) (sets : list set_call)
  : LRU * list call * list (option error) :=
  match sets with
  | [] => (l, [], [])
  | s :: rest =>
      let '(l1, c1, e1) := LRU_Set l (set_key s) (set_value s) (set_ttl s) (set_now s) in
      let '(l2, c2, es) := set_all l1 rest in
      (l2, c1 ++ c2, e1 :: es)
  end.

(** A state in which the heap is ordered, holds no key twice and holds
    stored keys only: what a run of [Set] on distinct keys keeps. *)
Definition fresh_state (l : LRU) : Prop :=
  cache_inv l /\ heap_ordered (expHeap l) /\
  NoDup (items (expHeap l)) /\
  (forall k, k ∈ items (expHeap l) -> is_Some (db l !! k)).

(** The calls [removeItem] makes when it removes [key]. *)
Definition evict_calls (l : LRU) (key : string) : list call :=
  if EvictCallback (opts l) then [(key, VNil)] else [].

(** The part of [cache_inv] that relates a table, an [expiresAt] map
    and a slice of keys. *)
Definition tracked (t : gmap string CacheItem) (m : gmap string Z)
    (its : list string) : Prop :=
  (forall k it, t !! k = Some it ->
     k <> ""%string /\ Key it = k /\ m !! k = Some (ExpiresAt it) /\ k ∈ its) /\
  (forall k, t !! k = None -> m !! k = None).


(** From [l] to [l'] the store only lost keys, and every call has the
    value nil and names a key that is no longer stored. *)
Definition removal_calls (l l' : LRU) (calls : list call) : Prop :=
  db l' ⊆ db l /\
  Forall (fun c : call => c.2 = VNil /\ db l' !! c.1 = None) calls.


(** The condition inside the loop of [up(h, j0)]: the heap condition
    holds at every index but [j0], and the children of [j0] are not
    less than the parent of [j0]. *)
Definition ordered_except (h : expirationHeap) (j0 : nat) : Prop :=
  (forall j a b, 0 < j -> j <> j0 ->
     items h !! j = Some b -> items h !! ((j - 1) / 2) = Some a ->
     (expirationHeap.at_ h a <= expirationHeap.at_ h b)%Z) /\
  (forall j a b, 0 < j0 -> (j - 1) / 2 = j0 ->
     items h !! j = Some b -> items h !! ((j0 - 1) / 2) = Some a ->
     (expirationHeap.at_ h a <= expirationHeap.at_ h b)%Z).

(** The end of [Atoi]: the sign applied to the digits' value [n], and
    the range check. *)
Definition in_int (n : Z) (neg : bool) : option Z :=
  let v := if neg then (- n)%Z else n in
  if ((strconv.minInt <=? v) && (v <=? strconv.maxInt))%Z then Some v else None.


(** A cache of capacity 3 with a callback, as [NewLRUWithTTL] builds
    it, for running the operations on concrete calls. *)
Definition cache3 : LRU :=
  {| db := ∅; size := 3;
     opts := {| LogLevel := "error"; EvictCallback := true |};
     expHeap := {| items := []; expiresAt := ∅ |} |}.

(** [cache3] after [Set("k", 7, 10)] at time 1: "k" expires at 11. *)
Definition cache3_k : LRU := (LRU_Set cache3 "k" (VInt 7) 10 1).1.1.

(** Four calls of [Set] on distinct keys, one hour each. *)
Definition four_sets : list set_call :=
  [ {| set_key := "key1"; set_value := VInt 1; set_ttl := 3600; set_now := 1 |};
    {| set_key := "key2"; set_value := VInt 2; set_ttl := 3600; set_now := 2 |};
    {| set_key := "key3"; set_value := VInt 3; set_ttl := 3600; set_now := 3 |};
    {| set_key := "key4"; set_value := VInt 4; set_ttl := 3600; set_now := 4 |} ].

(** *** Further predicates: the loop of [down], sorted pops *)

(** The heap condition on the first [n] items. *)
Definition prefix_ordered (h : expirationHeap) (n : nat) : Prop :=
  forall j a b, 0 < j -> j < n ->
    items h !! j = Some b -> items h !! ((j - 1) / 2) = Some a ->
    (expirationHeap.at_ h a <= expirationHeap.at_ h b)%Z.

(** The condition inside the loop of [down(h, i0, n)]: among the first
    [n] items the heap condition holds between every item and its
    parent unless the parent is [i0], and the children of [i0] are not
    less than the parent of [i0]. *)
Definition ordered_below (h : expirationHeap) (n i0 : nat) : Prop :=
  (forall j a b, 0 < j -> j < n -> (j - 1) / 2 <> i0 ->
     items h !! j = Some b -> items h !! ((j - 1) / 2) = Some a ->
     (expirationHeap.at_ h a <= expirationHeap.at_ h b)%Z) /\
  (forall j a b, 0 < i0 -> j < n -> (j - 1) / 2 = i0 ->
     items h !! j = Some b -> items h !! ((i0 - 1) / 2) = Some a ->
     (expirationHeap.at_ h a <= expirationHeap.at_ h b)%Z).

(** A list of times that never goes down. *)
Fixpoint non_decreasing (ts : list Z) : Prop :=
  match ts with
  | [] => True
  | t :: rest => Forall (fun u => (t <= u)%Z) rest /\ non_decreasing rest
  end.

(** The heap holds no more keys than the capacity. *)
Definition within_capacity (l : LRU) : Prop :=
  (0 < size l)%Z /\ (Z.of_nat (expirationHeap.Len (expHeap l)) <= size l)%Z.

(** [l.log(level, format, ...)]: the format string of the line handed to
    [log.Printf], [None] when nothing is printed. *)
Definition LRU_log (l : LRU) (level format : string) : option string :=
  let cfg := LogLevel (opts l) in
  if String.eqb cfg "debug" then Some ("[DEBUG] " +:+ format)
  else if String.eqb cfg "info" then
    if negb (String.eqb level "debug") then Some ("[INFO] " +:+ format) else None
  else if String.eqb cfg "warn" then
    if negb (String.eqb level "debug") && negb (String.eqb level "info")
    then Some ("[WARN] " +:+ format) else None
  else if String.eqb cfg "error" then
    if String.eqb level "error" then Some ("[ERROR] " +:+ format) else None
  else None.

(** The cache [l] with another [LogLevel]. *)
Definition with_LogLevel (l : LRU) (cfg : string) : LRU :=
  {| db := db l; size := size l;
     opts := {| LogLevel := cfg; EvictCallback := EvictCallback (opts l) |};
     expHeap := expHeap l |}.

(** A heap built by [heap.Push] of "a" (expiring at 5) and "b" (at 3). *)
Definition heap_ab : expirationHeap :=
  heap.Push
    (heap.Push {| items := []; expiresAt := {[ "a"%string := 5%Z; "b"%string := 3%Z ]} |}
       "a") "b".

(** A new cache of capacity 4 with a callback. *)
Definition cache4 : LRU :=
  {| db := ∅; size := 4;
     opts := {| LogLevel := "error"; EvictCallback := true |};
     expHeap := {| items := []; expiresAt := ∅ |} |}.

(** A new cache of capacity 3 without a callback. *)
Definition cache3_no_callback : LRU :=
  {| db := ∅; size := 3;
     opts := {| LogLevel := "error"; EvictCallback := false |};
     expHeap := {| items := []; expiresAt := ∅ |} |}.

(** A new cache of capacity 2 with a callback. *)
Definition cache2 : LRU :=
  {| db := ∅; size := 2;
     opts := {| LogLevel := "error"; EvictCallback := true |};
     expHeap := {| items := []; expiresAt := ∅ |} |}.

(** [cache2] after [Set("a", 0, 100)] at time 1 and [Delete("a")]: the
    store is empty again. *)
Definition cache2_emptied : LRU :=
  (LRU_Delete (LRU_Set cache2 "a" (VInt 0) 100 1).1.1 "a").1.1.

(** Three calls of [Set] on distinct keys, none expiring before 203. *)
Definition three_sets : list set_call :=
  [ {| set_key := "a"; set_value := VInt 1; set_ttl := 1000; set_now := 2 |};
    {| set_key := "b"; set_value := VInt 2; set_ttl := 200; set_now := 3 |};
    {| set_key := "c"; set_value := VInt 3; set_ttl := 300; set_now := 4 |} ].

(** *** container/heap: what [up], [down], [Push] and [Pop] keep *)

Lemma insert_cons_perm {A} (l : list A) j a b :
  l !! j = Some b -> b :: <[j := a]> l ≡ₚ a :: l.
Proof.
  revert j; induction l as [|c l IH]; intros [|j] Hj; simplify_eq/=.
  - apply perm_swap.
  - rewrite perm_swap, (IH _ Hj). apply perm_swap.
Qed.

Lemma list_swap_perm {A} (l : list A) i j a b :
  l !! i = Some a -> l !! j = Some b -> <[i := b]> (<[j := a]> l) ≡ₚ l.
Proof.
  revert i j; induction l as [|c l IH]; intros [|i] [|j] Hi Hj; simplify_eq/=.
  - done.
  - by apply insert_cons_perm.
  - by apply insert_cons_perm.
  - f_equiv. by apply IH.
Qed.

Lemma Swap_expiresAt h i j :
  expiresAt (expirationHeap.Swap h i j) = expiresAt h.
Proof.
  unfold expirationHeap.Swap.
  destruct (items h !! i); [destruct (items h !! j)|]; done.
Qed.

Lemma Swap_items_perm h i j : items (expirationHeap.Swap h i j) ≡ₚ items h.
Proof.
  unfold expirationHeap.Swap.
  destruct (items h !! i) eqn:Hi; [destruct (items h !! j) eqn:Hj|]; try done.
  simpl. by apply list_swap_perm.
Qed.

Lemma Swap_at h i j k :
  expirationHeap.at_ (expirationHeap.Swap h i j) k = expirationHeap.at_ h k.
Proof. unfold expirationHeap.at_. by rewrite Swap_expiresAt. Qed.

Lemma Swap_length h i j :
  length (items (expirationHeap.Swap h i j)) = length (items h).
Proof. by rewrite (Swap_items_perm h i j). Qed.

(** [Swap] at two indices in range, read back at any index. *)
Lemma Swap_lookup h i j a b k :
  items h !! i = Some a -> items h !! j = Some b ->
  items (expirationHeap.Swap h i j) !! k =
    if decide (k = i) then Some b
    else if decide (k = j) then Some a
    else items h !! k.
Proof.
  intros Hi Hj. unfold expirationHeap.Swap. rewrite Hi, Hj. simpl.
  pose proof (lookup_lt_Some _ _ _ Hi). pose proof (lookup_lt_Some _ _ _ Hj).
  destruct (decide (k = i)) as [->|Hki].
  - rewrite list_lookup_insert_eq; [done|]. by rewrite length_insert.
  - rewrite list_lookup_insert_ne by done.
    destruct (decide (k = j)) as [->|Hkj].
    + by rewrite list_lookup_insert_eq.
    + by rewrite list_lookup_insert_ne.
Qed.

Lemma up_loop_expiresAt fuel h j :
  expiresAt (heap.up_loop fuel h j) = expiresAt h.
Proof.
  revert h j; induction fuel as [|fuel IH]; intros h j; simpl; [done|].
  destruct (_ || _); [done|]. by rewrite IH, Swap_expiresAt.
Qed.

Lemma up_loop_perm fuel h j : items (heap.up_loop fuel h j) ≡ₚ items h.
Proof.
  revert h j; induction fuel as [|fuel IH]; intros h j; simpl; [done|].
  destruct (_ || _); [done|]. by rewrite IH, Swap_items_perm.
Qed.

Lemma down_loop_expiresAt fuel h i n :
  expiresAt (heap.down_loop fuel h i n) = expiresAt h.
Proof.
  revert h i; induction fuel as [|fuel IH]; intros h i; simpl; [done|].
  destruct (n <=? _); [done|]. destruct (negb _); [done|].
  by rewrite IH, Swap_expiresAt.
Qed.

Lemma down_loop_perm fuel h i n : items (heap.down_loop fuel h i n) ≡ₚ items h.
Proof.
  revert h i; induction fuel as [|fuel IH]; intros h i; simpl; [done|].
  destruct (n <=? _); [done|]. destruct (negb _); [done|].
  by rewrite IH, Swap_items_perm.
Qed.

(** [down(h, i, n)] leaves the slice from [n] on as it is. *)
Lemma down_loop_above fuel h i n k :
  n <= k -> items (heap.down_loop fuel h i n) !! k = items h !! k.
Proof.
  intros Hk. revert h i; induction fuel as [|fuel IH]; intros h i;
    cbn [heap.down_loop]; [done|].
  destruct (n <=? 2 * i + 1) eqn:Hn; [done|].
  apply Nat.leb_gt in Hn.
  set (j := if _ && _ then _ else _).
  assert (j < n /\ i < j) as [Hj Hij].
  { subst j. destruct (2 * i + 1 + 1 <? n) eqn:H2; simpl.
    - apply Nat.ltb_lt in H2. destruct (expirationHeap.Less _ _ _); lia.
    - lia. }
  destruct (negb _); [done|]. rewrite IH.
  unfold expirationHeap.Swap.
  destruct (items h !! i) eqn:Hi; [destruct (items h !! j) eqn:Hjj|]; try done.
  simpl. rewrite !list_lookup_insert_ne by lia. done.
Qed.

Lemma heap_Push_expiresAt h x : expiresAt (heap.Push h x) = expiresAt h.
Proof. unfold heap.Push, heap.up. by rewrite up_loop_expiresAt. Qed.

Lemma heap_Push_perm h x : items (heap.Push h x) ≡ₚ x :: items h.
Proof.
  unfold heap.Push, heap.up. rewrite up_loop_perm. simpl.
  by rewrite Permutation_app_comm.
Qed.

Lemma heap_Push_length h x :
  expirationHeap.Len (heap.Push h x) = S (expirationHeap.Len h).
Proof. unfold expirationHeap.Len. by rewrite heap_Push_perm. Qed.

Lemma expirationHeap_Pop_Some h x h' :
  expirationHeap.Pop h = Some (x, h') ->
  items h = items h' ++ [x] /\ expiresAt h' = expiresAt h.
Proof.
  unfold expirationHeap.Pop. destruct (last (items h)) as [y|] eqn:Hl; [|done].
  intros [= <- <-]; simpl. split; [|done].
  destruct (items h) as [|a l _] using rev_ind; [done|].
  rewrite last_snoc in Hl. simplify_eq.
  rewrite length_app; simpl.
  replace (length l + 1 - 1) with (length l) by lia.
  by rewrite take_app_length.
Qed.

(** [heap.Pop] on a non-empty heap returns the key at the root and
    keeps the other occurrences of keys and the [expiresAt] map. *)
Lemma heap_Pop_Some h :
  items h <> [] ->
  exists x h', heap.Pop h = Some (x, h') /\
    items h !! 0 = Some x /\
    items h ≡ₚ x :: items h' /\
    expiresAt h' = expiresAt h.
Proof.
  intros Hne. unfold heap.Pop, expirationHeap.Len.
  destruct (length (items h)) as [|n] eqn:Hlen.
  { destruct (items h); done. }
  set (h1 := expirationHeap.Swap h 0 n).
  set (h2 := heap.down h1 0 n).
  assert (is_Some (items h !! 0)) as [x Hx] by (apply lookup_lt_is_Some; lia).
  assert (is_Some (items h !! n)) as [y Hy] by (apply lookup_lt_is_Some; lia).
  assert (length (items h2) = S n) as Hlen2.
  { subst h2 h1. unfold heap.down. by rewrite down_loop_perm, Swap_length. }
  assert (items h2 !! n = Some x) as Hn2.
  { subst h2. unfold heap.down. rewrite down_loop_above by lia.
    subst h1. rewrite (Swap_lookup h 0 n x y) by done.
    destruct (decide (n = 0)) as [->|]; [congruence|].
    by rewrite decide_True. }
  destruct (expirationHeap.Pop h2) as [[x' h']|] eqn:Hpop.
  - apply expirationHeap_Pop_Some in Hpop as [Hit Hex].
    assert (x' = x) as ->.
    { rewrite Hit in Hn2, Hlen2. rewrite length_app in Hlen2; simpl in Hlen2.
      rewrite lookup_app_r in Hn2 by lia.
      replace (n - length (items h')) with 0 in Hn2 by lia. by simplify_eq/=. }
    exists x, h'. split_and!; [done|done| |].
    + rewrite <- (Swap_items_perm h 0 n). fold h1.
      rewrite <- (down_loop_perm n h1 0 n). fold (heap.down h1 0 n). fold h2.
      rewrite Hit. by rewrite Permutation_app_comm.
    + rewrite Hex. subst h2 h1. unfold heap.down.
      by rewrite down_loop_expiresAt, Swap_expiresAt.
  - unfold expirationHeap.Pop in Hpop.
    destruct (last (items h2)) eqn:Hl; [done|].
    apply last_None in Hl. rewrite Hl in Hlen2. done.
Qed.

Lemma heap_Pop_inv h x h' :
  heap.Pop h = Some (x, h') ->
  items h !! 0 = Some x /\ items h ≡ₚ x :: items h' /\
  expiresAt h' = expiresAt h.
Proof.
  intros Hp. destruct (decide (items h = [])) as [He|Hne].
  { unfold heap.Pop, expirationHeap.Len in Hp. by rewrite He in Hp. }
  destruct (heap_Pop_Some h Hne) as (y & h'' & Hp' & ?). by simplify_eq.
Qed.

(** [heap.Pop] panics on the empty heap only. *)
Lemma heap_Pop_None h : heap.Pop h = None <-> items h = [].
Proof.
  split.
  - intros Hp. destruct (decide (items h = [])) as [|Hne]; [done|].
    destruct (heap_Pop_Some h Hne) as (x & h' & Hp' & _). congruence.
  - intros He. unfold heap.Pop, expirationHeap.Len. by rewrite He.
Qed.

(** *** container/heap: [up] restores the heap condition *)

Lemma parent_lt j : 0 < j -> (j - 1) / 2 < j.
Proof. intros Hj. apply Nat.Div0.div_lt_upper_bound; lia. Qed.

Lemma parent_le j : (j - 1) / 2 <= j.
Proof. destruct j; [done|]. pose proof (parent_lt (S j)). lia. Qed.

Lemma heap_ordered_except_root h :
  ordered_except h 0 -> heap_ordered h.
Proof. intros [H1 _] j a b Hj. apply H1; lia. Qed.

Lemma ordered_except_swap h j a b :
  0 < j ->
  items h !! j = Some b -> items h !! ((j - 1) / 2) = Some a ->
  (expirationHeap.at_ h b < expirationHeap.at_ h a)%Z ->
  ordered_except h j ->
  ordered_except (expirationHeap.Swap h ((j - 1) / 2) j) ((j - 1) / 2).
Proof.
  intros Hj Hb Ha Hlt [H1 H2].
  pose proof (parent_lt j Hj) as Hij.
  set (i := (j - 1) / 2) in *.
  split.
  - intros k x y Hk Hki. rewrite !(Swap_lookup h i j a b) by done.
    rewrite !Swap_at. rewrite (decide_False (P := k = i)) by done.
    pose proof (parent_lt k Hk) as Hpk.
    destruct (decide (k = j)) as [->|Hkj].
    + intros [= <-]. fold i. rewrite decide_True by done. intros [= <-]. lia.
    + intros Hy. destruct (decide ((k - 1) / 2 = i)) as [Hpi|Hpi].
      * intros [= <-]. assert (expirationHeap.at_ h a <= expirationHeap.at_ h y)%Z.
        { apply (H1 k); [done..|]. by rewrite Hpi. }
        lia.
      * destruct (decide ((k - 1) / 2 = j)) as [Hpj|Hpj].
        -- intros [= <-]. by apply (H2 k).
        -- intros Hx. by apply (H1 k).
  - intros k x y Hi Hpk. rewrite !(Swap_lookup h i j a b) by done.
    rewrite !Swap_at.
    pose proof (parent_lt i Hi) as Hpi.
    assert (0 < k) as Hk by (pose proof (parent_le k); lia).
    pose proof (parent_lt k Hk) as Hpk'.
    rewrite (decide_False (P := k = i)) by lia.
    rewrite (decide_False (P := (i - 1) / 2 = i)) by lia.
    rewrite (decide_False (P := (i - 1) / 2 = j)) by lia.
    intros Hy Hx.
    assert (expirationHeap.at_ h x <= expirationHeap.at_ h a)%Z as Hxa.
    { apply (H1 i); [done|lia|done|done]. }
    destruct (decide (k = j)) as [->|Hkj].
    + by simplify_eq.
    + assert (expirationHeap.at_ h a <= expirationHeap.at_ h y)%Z.
      { apply (H1 k); [done..|]. by rewrite Hpk. }
      lia.
Qed.

Lemma up_loop_ordered fuel h j :
  j < fuel -> j < length (items h) ->
  ordered_except h j -> heap_ordered (heap.up_loop fuel h j).
Proof.
  revert h j; induction fuel as [|fuel IH]; intros h j Hf Hlen Hord; [lia|].
  cbn [heap.up_loop].
  destruct (Nat.eqb_spec ((j - 1) / 2) j) as [Heq|Hne]; cbn [orb].
  { assert (j = 0) as -> by (destruct j; [done|]; pose proof (parent_lt (S j)); lia).
    by apply heap_ordered_except_root. }
  assert (0 < j) as Hj by (destruct j; [done|lia]).
  pose proof (parent_lt j Hj) as Hij.
  destruct (lookup_lt_is_Some_2 (items h) j Hlen) as [b Hb].
  destruct (lookup_lt_is_Some_2 (items h) ((j - 1) / 2)) as [a Ha]; [lia|].
  destruct (expirationHeap.Less h j ((j - 1) / 2)) eqn:Hless; cbn [negb].
  - unfold expirationHeap.Less in Hless. rewrite Hb, Ha in Hless.
    apply Z.ltb_lt in Hless.
    apply IH; [lia|rewrite Swap_length; lia|].
    by apply (ordered_except_swap h j a b).
  - unfold expirationHeap.Less in Hless. rewrite Hb, Ha in Hless.
    apply Z.ltb_ge in Hless.
    destruct Hord as [H1 H2]. intros k x y Hk Hy Hx.
    destruct (decide (k = j)) as [->|Hkj].
    + by simplify_eq.
    + by apply (H1 k).
Qed.

(** [heap.Push] keeps the heap condition. *)
Lemma heap_Push_ordered h x :
  heap_ordered h -> heap_ordered (heap.Push h x).
Proof.
  intros Hord. unfold heap.Push, heap.up.
  assert (expirationHeap.Len (expirationHeap.Push h x) - 1 = length (items h))
    as ->.
  { unfold expirationHeap.Len, expirationHeap.Push; cbn [items].
    rewrite length_app; simpl. lia. }
  apply up_loop_ordered; cbn [expirationHeap.Push items];
    [lia|rewrite length_app; simpl; lia|].
  unfold ordered_except, expirationHeap.at_, expirationHeap.Push.
  cbn [items expiresAt]. split.
  - intros k a b Hk Hkn Hb Ha.
    assert (k < length (items h)).
    { apply lookup_lt_Some in Hb. rewrite length_app in Hb; simpl in Hb. lia. }
    pose proof (parent_lt k Hk).
    rewrite lookup_app_l in Hb, Ha by lia.
    by apply (Hord k).
  - intros k a b Hn Hpk Hb Ha.
    assert (0 < k) as Hk by (pose proof (parent_le k); lia).
    pose proof (parent_lt k Hk).
    apply lookup_lt_Some in Hb. rewrite length_app in Hb; simpl in Hb. lia.
Qed.

(** In an ordered heap no key expires before the key at the root. *)
Lemma heap_ordered_root_min h r :
  heap_ordered h -> items h !! 0 = Some r ->
  forall k, k ∈ items h ->
    (expirationHeap.at_ h r <= expirationHeap.at_ h k)%Z.
Proof.
  intros Hord Hr k Hk. apply list_elem_of_lookup in Hk as [j Hj].
  revert k Hj. induction j as [j IH] using lt_wf_ind. intros k Hj.
  destruct (decide (j = 0)) as [->|Hne]; [by simplify_eq|].
  assert (0 < j) as Hpos by lia.
  pose proof (parent_lt j Hpos) as Hp.
  destruct (lookup_lt_is_Some_2 (items h) ((j - 1) / 2)) as [a Ha].
  { apply lookup_lt_Some in Hj. lia. }
  pose proof (IH _ Hp _ Ha). pose proof (Hord j a k Hpos Hj Ha). lia.
Qed.

(** Changing the expiration of a key that is not in the heap keeps
    the heap condition. *)
Lemma heap_ordered_insert_fresh h key e :
  key ∉ items h -> heap_ordered h ->
  heap_ordered {| items := items h; expiresAt := <[key := e]> (expiresAt h) |}.
Proof.
  intros Hnin Hord j a b Hj Hb Ha; simpl in *.
  unfold expirationHeap.at_; simpl.
  rewrite !lookup_insert_ne.
  - by apply (Hord j).
  - intros ->. apply Hnin. by eapply list_elem_of_lookup_2.
  - intros ->. apply Hnin. by eapply list_elem_of_lookup_2.
Qed.

(** *** The store: [memdb.Delete] and [removeItem] by cases *)

Lemma memdb_Delete_inl t obj t' :
  memdb.Delete t obj = inl t' ->
  Key obj <> ""%string /\ is_Some (t !! Key obj) /\ t' = delete (Key obj) t.
Proof.
  unfold memdb.Delete. destruct (String.eqb_spec (Key obj) ""); [done|].
  destruct (t !! Key obj) eqn:Hk; [|done]. intros [= <-]. eauto.
Qed.

Lemma memdb_Delete_inr t obj e :
  memdb.Delete t obj = inr e -> Key obj = ""%string \/ t !! Key obj = None.
Proof.
  unfold memdb.Delete. destruct (String.eqb_spec (Key obj) ""); [auto|].
  destruct (t !! Key obj) eqn:Hk; [done|auto].
Qed.


Lemma memdb_Delete_absent t key v e :
  t !! key = None ->
  exists err, memdb.Delete t {| Key := key; Value := v; ExpiresAt := e |} = inr err.
Proof.
  intros Hk. unfold memdb.Delete; simpl.
  destruct (String.eqb_spec key ""); [eauto|]. rewrite Hk. eauto.
Qed.

Lemma removeItem_cases l key :
  (key <> ""%string /\ is_Some (db l !! key) /\
   removeItem l key =
     (delete_expiresAt (with_db l (delete key (db l))) key, evict_calls l key)) \/
  ((key = ""%string \/ db l !! key = None) /\ removeItem l key = (l, [])).
Proof.
  unfold removeItem.
  destruct (memdb.Delete _ _) as [t|e] eqn:Hd.
  - apply memdb_Delete_inl in Hd as (? & ? & ->). left. done.
  - apply memdb_Delete_inr in Hd. right. done.
Qed.

Lemma removeItem_present l key it :
  key <> ""%string -> db l !! key = Some it ->
  removeItem l key =
    (delete_expiresAt (with_db l (delete key (db l))) key, evict_calls l key).
Proof.
  intros Hne Hk. destruct (removeItem_cases l key) as [(_ & _ & ->)|[[?|?] _]];
    [done|done|congruence].
Qed.

(** *** The invariant of the store and the expiry index *)

Lemma cache_inv_tracked l :
  cache_inv l <->
  (0 < size l)%Z /\
  tracked (db l) (expiresAt (expHeap l)) (items (expHeap l)).
Proof. unfold cache_inv, tracked. tauto. Qed.

Lemma tracked_delete t m its its' key :
  tracked t m its ->
  (forall k, k ∈ its -> k <> key -> k ∈ its') ->
  tracked (delete key t) (delete key m) its'.
Proof.
  intros [H1 H2] Hits. split.
  - intros k it Hk. apply lookup_delete_Some in Hk as [Hne Hk].
    destruct (H1 _ _ Hk) as (? & ? & ? & ?).
    split_and!; [done|done| |by auto].
    by rewrite lookup_delete_ne.
  - intros k Hk. destruct (decide (key = k)) as [->|Hne].
    + apply lookup_delete_eq.
    + rewrite lookup_delete_ne in Hk by done.
      rewrite lookup_delete_ne by done. auto.
Qed.

Lemma tracked_drop t m its its' key :
  tracked t m its ->
  key = ""%string \/ t !! key = None ->
  (forall k, k ∈ its -> k <> key -> k ∈ its') ->
  tracked t m its'.
Proof.
  intros [H1 H2] Hkey Hits. split; [|done].
  intros k it Hk. destruct (H1 _ _ Hk) as (? & ? & ? & ?).
  split_and!; [done..|]. apply Hits; [done|].
  intros ->. destruct Hkey; congruence.
Qed.

Lemma tracked_insert t m its its' key data e :
  tracked t m its -> key <> ""%string ->
  (forall k, k ∈ key :: its -> k ∈ its') ->
  tracked (<[key := {| Key := key; Value := data; ExpiresAt := e |}]> t)
          (<[key := e]> m) its'.
Proof.
  intros [H1 H2] Hne Hits. split.
  - intros k it Hk. destruct (decide (key = k)) as [->|Hkk].
    + rewrite lookup_insert_eq in Hk. simplify_eq. simpl.
      rewrite lookup_insert_eq. split_and!; [done..|]. apply Hits. left.
    + rewrite lookup_insert_ne in Hk by done.
      destruct (H1 _ _ Hk) as (? & ? & ? & ?).
      rewrite lookup_insert_ne by done. split_and!; [done..|].
      apply Hits. by right.
  - intros k Hk. destruct (decide (key = k)) as [->|Hkk].
    + by rewrite lookup_insert_eq in Hk.
    + rewrite lookup_insert_ne in Hk by done.
      rewrite lookup_insert_ne by done. auto.
Qed.

(** [removeItem] on a state whose heap lost one occurrence of [key]
    (or none). *)
Lemma removeItem_tracked l key its :
  (0 < size l)%Z ->
  tracked (db l) (expiresAt (expHeap l)) its ->
  (forall k, k ∈ its -> k <> key -> k ∈ items (expHeap l)) ->
  cache_inv (removeItem l key).1.
Proof.
  intros Hs Ht Hits. apply cache_inv_tracked.
  destruct (removeItem_cases l key) as [(Hne & Hin & ->)|[Hno ->]]; simpl.
  - split; [done|]. by eapply tracked_delete.
  - split; [done|]. by eapply tracked_drop.
Qed.

Lemma removeItem_inv l key : cache_inv l -> cache_inv (removeItem l key).1.
Proof.
  intros [Hs Ht]%cache_inv_tracked. eapply removeItem_tracked; eauto.
Qed.

Lemma pop_removeItem_inv l key h :
  cache_inv l -> heap.Pop (expHeap l) = Some (key, h) ->
  cache_inv (removeItem (with_expHeap l h) key).1.
Proof.
  intros [Hs Ht]%cache_inv_tracked Hp.
  apply heap_Pop_inv in Hp as (_ & Hperm & Hex).
  eapply removeItem_tracked; simpl; [done| |].
  - rewrite Hex. exact Ht.
  - intros k Hk Hne. rewrite Hperm in Hk.
    apply elem_of_cons in Hk as [?|?]; done.
Qed.

Lemma evict_loop_inv fuel l : cache_inv l -> cache_inv (evict_loop fuel l).1.
Proof.
  revert l; induction fuel as [|fuel IH]; intros l Hl; simpl; [done|].
  destruct (_ >? _)%Z; [|done].
  destruct (heap.Pop (expHeap l)) as [[k h]|] eqn:Hp; [|done].
  pose proof (pop_removeItem_inv _ _ _ Hl Hp) as H1.
  destruct (removeItem (with_expHeap l h) k) as [l1 c1]; simpl in H1.
  specialize (IH _ H1). destruct (evict_loop fuel l1). done.
Qed.

Lemma sweep_loop_inv fuel l now :
  cache_inv l -> cache_inv (sweep_loop fuel l now).1.
Proof.
  revert l; induction fuel as [|fuel IH]; intros l Hl; simpl; [done|].
  destruct (items (expHeap l)); [done|].
  destruct (_ <? _)%Z; [|done].
  destruct (heap.Pop (expHeap l)) as [[k h]|] eqn:Hp; [|done].
  pose proof (pop_removeItem_inv _ _ _ Hl Hp) as H1.
  destruct (removeItem (with_expHeap l h) k) as [l1 c1]; simpl in H1.
  specialize (IH _ H1). destruct (sweep_loop fuel l1 now). done.
Qed.

Lemma NewLRUWithTTL_inv size opts l :
  NewLRUWithTTL size opts = inl l -> cache_inv l.
Proof.
  unfold NewLRUWithTTL. destruct (Z.leb_spec size 0); [done|].
  intros [= <-]. split; [done|]. split; simpl; [|done].
  intros k it Hk. by rewrite lookup_empty in Hk.
Qed.

Lemma LRU_Delete_inv l key : cache_inv l -> cache_inv (LRU_Delete l key).1.1.
Proof.
  intros [Hs Ht]%cache_inv_tracked. unfold LRU_Delete.
  destruct (memdb.Delete _ _) as [t|e] eqn:Hd; simpl.
  - apply memdb_Delete_inl in Hd as (? & ? & ->).
    apply cache_inv_tracked; split; [done|]. simpl.
    by eapply tracked_delete.
  - by apply cache_inv_tracked.
Qed.

Lemma delete_rows_lookup rows t t' k :
  delete_rows t rows = inl t' ->
  t' !! k = if decide (k ∈ Key <$> rows) then None else t !! k.
Proof.
  revert t; induction rows as [|it rows IH]; intros t; simpl.
  - intros [= <-]. done.
  - destruct (memdb.Delete t it) as [t1|] eqn:Hd; [|done].
    apply memdb_Delete_inl in Hd as (_ & _ & ->).
    intros Hr. rewrite (IH _ Hr).
    destruct (decide (k ∈ Key <$> rows)) as [Hin|Hnin].
    + rewrite decide_True; [done|]. by right.
    + destruct (decide (k = Key it)) as [->|Hne].
      * rewrite decide_True by left. apply lookup_delete_eq.
      * rewrite decide_False.
        -- by rewrite lookup_delete_ne.
        -- intros [?|?]%elem_of_cons; done.
Qed.

(** Under the invariant the transaction of [Clear] empties the table. *)
Lemma delete_rows_all l t :
  cache_inv l -> delete_rows (db l) (memdb.Get (db l)) = inl t -> t = ∅.
Proof.
  intros (_ & H1 & _) Hr. apply map_eq; intros k.
  rewrite (delete_rows_lookup _ _ _ k Hr), lookup_empty.
  destruct (decide _) as [|Hnin]; [done|].
  destruct (db l !! k) as [it|] eqn:Hk; [|done].
  exfalso. apply Hnin. destruct (H1 _ _ Hk) as (_ & <- & _).
  apply list_elem_of_fmap. exists it; split; [done|].
  unfold memdb.Get. apply list_elem_of_fmap. exists (Key it, it). split; [done|].
  by apply elem_of_map_to_list.
Qed.

Lemma LRU_Clear_inv l : cache_inv l -> cache_inv (LRU_Clear l).1.1.
Proof.
  intros Hl. unfold LRU_Clear.
  destruct (delete_rows _ _) as [t|e] eqn:Hr; simpl; [|done].
  rewrite (delete_rows_all _ _ Hl Hr).
  destruct Hl as (Hs & _). split; [done|]. split; simpl; [|done].
  intros k it Hk. by rewrite lookup_empty in Hk.
Qed.

Lemma LRU_Set_inv l key v ttl now :
  cache_inv l -> cache_inv (LRU_Set l key v ttl now).1.1.
Proof.
  intros Hl. unfold LRU_Set.
  destruct (ttl <=? 0)%Z; [done|].
  destruct (serialize v) as [data|]; [|done].
  unfold memdb.Insert; simpl.
  destruct (String.eqb_spec key "") as [|Hne]; [done|].
  match goal with |- context [evict ?x] => set (l2 := x) end.
  assert (cache_inv l2) as H2.
  { apply cache_inv_tracked in Hl as [Hs Ht].
    apply cache_inv_tracked. subst l2; simpl. split; [done|].
    rewrite heap_Push_expiresAt; simpl.
    eapply tracked_insert; [exact Ht|done|].
    intros k Hk. by rewrite heap_Push_perm. }
  pose proof (evict_loop_inv (expirationHeap.Len (expHeap l2)) l2 H2) as H3.
  unfold evict. destruct (evict_loop _ l2). done.
Qed.

Lemma LRU_Get_inv l key now : cache_inv l -> cache_inv (LRU_Get l key now).1.1.
Proof.
  intros Hl. unfold LRU_Get, memdb.First.
  destruct (db l !! key) as [it|]; [|done].
  destruct (_ >? _)%Z.
  - pose proof (removeItem_inv l key Hl). by destruct (removeItem l key).
  - by destruct (deserialize _).
Qed.

Lemma run_inv l o now : cache_inv l -> cache_inv (run l o now).1.
Proof.
  intros Hl. destruct o; simpl.
  - by apply LRU_Set_inv.
  - by apply LRU_Get_inv.
  - by apply LRU_Delete_inv.
  - by apply LRU_Clear_inv.
  - by apply sweep_loop_inv.
Qed.

(** Every reachable state satisfies the invariant. *)
Lemma reachable_inv l : reachable l -> cache_inv l.
Proof.
  induction 1 as [sz o l Hnew|l o now _ IH].
  - by eapply NewLRUWithTTL_inv.
  - by apply run_inv.
Qed.

(** *** Callback calls: made by [removeItem] only, for removed keys *)

Lemma removal_calls_nil l : removal_calls l l [].
Proof. split; [done|constructor]. Qed.

Lemma removal_calls_trans l0 l1 l2 c1 c2 :
  removal_calls l0 l1 c1 -> removal_calls l1 l2 c2 ->
  removal_calls l0 l2 (c1 ++ c2).
Proof.
  intros [Hs1 Hc1] [Hs2 Hc2]. split; [by etrans|].
  apply Forall_app; split; [|done].
  eapply Forall_impl; [exact Hc1|]. intros c [? Hn]; split; [done|].
  by eapply lookup_weaken_None.
Qed.

Lemma removeItem_calls l key :
  removal_calls l (removeItem l key).1 (removeItem l key).2.
Proof.
  destruct (removeItem_cases l key) as [(_ & _ & ->)|[_ ->]]; simpl.
  - split; simpl; [apply delete_subseteq|].
    unfold evict_calls. destruct (EvictCallback _); constructor; [|constructor].
    simpl. split; [done|apply lookup_delete_eq].
  - apply removal_calls_nil.
Qed.

Lemma evict_loop_calls fuel l :
  removal_calls l (evict_loop fuel l).1 (evict_loop fuel l).2.
Proof.
  revert l; induction fuel as [|fuel IH]; intros l; simpl;
    [apply removal_calls_nil|].
  destruct (_ >? _)%Z; [|apply removal_calls_nil].
  destruct (heap.Pop (expHeap l)) as [[k h]|]; [|apply removal_calls_nil].
  pose proof (removeItem_calls (with_expHeap l h) k) as H1.
  destruct (removeItem (with_expHeap l h) k) as [l1 c1]; simpl in H1.
  specialize (IH l1). destruct (evict_loop fuel l1) as [l2 c2]; simpl in *.
  by eapply (removal_calls_trans (with_expHeap l h)).
Qed.

Lemma sweep_loop_calls fuel l now :
  removal_calls l (sweep_loop fuel l now).1 (sweep_loop fuel l now).2.
Proof.
  revert l; induction fuel as [|fuel IH]; intros l; simpl;
    [apply removal_calls_nil|].
  destruct (items (expHeap l)); [apply removal_calls_nil|].
  destruct (_ <? _)%Z; [|apply removal_calls_nil].
  destruct (heap.Pop (expHeap l)) as [[k h]|]; [|apply removal_calls_nil].
  pose proof (removeItem_calls (with_expHeap l h) k) as H1.
  destruct (removeItem (with_expHeap l h) k) as [l1 c1]; simpl in H1.
  specialize (IH l1). destruct (sweep_loop fuel l1 now) as [l2 c2]; simpl in *.
  by eapply (removal_calls_trans (with_expHeap l h)).
Qed.

Lemma LRU_Set_calls l key v ttl now k w :
  (k, w) ∈ (LRU_Set l key v ttl now).1.2 ->
  w = VNil /\ db (LRU_Set l key v ttl now).1.1 !! k = None.
Proof.
  unfold LRU_Set.
  destruct (ttl <=? 0)%Z; [by intros ?%elem_of_nil|].
  destruct (serialize v) as [data|]; [|by intros ?%elem_of_nil].
  destruct (memdb.Insert _ _) as [t|e]; [|by intros ?%elem_of_nil].
  match goal with |- context [evict ?x] => set (l2 := x) end.
  pose proof (evict_loop_calls (expirationHeap.Len (expHeap l2)) l2) as [_ Hc].
  unfold evict. destruct (evict_loop _ l2) as [l3 c3]; simpl in *.
  intros Hin. rewrite Forall_forall in Hc. exact (Hc _ Hin).
Qed.

Lemma LRU_Get_calls l key now k w :
  (k, w) ∈ (LRU_Get l key now).1.2 ->
  w = VNil /\ db (LRU_Get l key now).1.1 !! k = None /\
  k = key /\ (LRU_Get l key now).2 = inr ErrItemExpired.
Proof.
  unfold LRU_Get, memdb.First.
  destruct (db l !! key) as [it|]; [|by intros ?%elem_of_nil].
  destruct (_ >? _)%Z.
  - pose proof (removeItem_calls l key) as [_ Hc].
    destruct (removeItem_cases l key) as [(_ & _ & Hr)|[_ Hr]];
      rewrite Hr in Hc |- *; simpl in *.
    + intros Hin. rewrite Forall_forall in Hc.
      destruct (Hc _ Hin) as [? ?]. split_and!; [done..| |done].
      unfold evict_calls in Hin. destruct (EvictCallback _).
      * apply list_elem_of_singleton in Hin. congruence.
      * by apply elem_of_nil in Hin.
    + by intros ?%elem_of_nil.
  - destruct (deserialize _); by intros ?%elem_of_nil.
Qed.

(** *** The loops never run out of rounds *)

(** [up] gives the same heap with any number of rounds above [j]. *)
Lemma up_loop_fuel f1 f2 h j :
  j < f1 -> j < f2 -> heap.up_loop f1 h j = heap.up_loop f2 h j.
Proof.
  revert f2 h j; induction f1 as [|f1 IH]; intros f2 h j H1 H2; [lia|].
  destruct f2 as [|f2]; [lia|]. cbn [heap.up_loop].
  destruct (Nat.eqb_spec ((j - 1) / 2) j) as [|Hne]; cbn [orb]; [done|].
  destruct (negb _); [done|].
  assert (0 < j) by (destruct j; [done|lia]).
  pose proof (parent_lt j). apply IH; lia.
Qed.

(** [down] gives the same heap with any number of rounds from [n - i]. *)
Lemma down_loop_fuel f1 f2 h i n :
  n - i <= f1 -> n - i <= f2 ->
  heap.down_loop f1 h i n = heap.down_loop f2 h i n.
Proof.
  revert f2 h i; induction f1 as [|f1 IH]; intros f2 h i H1 H2.
  - destruct f2 as [|f2]; [done|]. cbn [heap.down_loop].
    destruct (Nat.leb_spec n (2 * i + 1)); [done|lia].
  - cbn [heap.down_loop].
    destruct f2 as [|f2]; cbn [heap.down_loop];
      destruct (Nat.leb_spec n (2 * i + 1)) as [|Hn]; [done|lia|done|].
    set (j := if _ && _ then _ else _).
    assert (i < j) as Hij.
    { subst j. destruct (_ && _); lia. }
    destruct (negb _); [done|]. apply IH; lia.
Qed.

Lemma removeItem_items l key :
  items (expHeap (removeItem l key).1) = items (expHeap l) /\
  size (removeItem l key).1 = size l.
Proof.
  by destruct (removeItem_cases l key) as [(_ & _ & ->)|[_ ->]].
Qed.

(** With a capacity that is not negative, the eviction loop gives the
    same result with any number of rounds from [Len] on. *)
Lemma evict_loop_fuel f1 f2 l :
  (0 <= size l)%Z ->
  expirationHeap.Len (expHeap l) <= f1 ->
  expirationHeap.Len (expHeap l) <= f2 ->
  evict_loop f1 l = evict_loop f2 l.
Proof.
  intros Hs. revert f2 l Hs; induction f1 as [|f1 IH]; intros f2 l Hs H1 H2.
  - destruct f2 as [|f2]; [done|]. cbn [evict_loop].
    destruct (Z.gtb_spec (Z.of_nat (expirationHeap.Len (expHeap l))) (size l));
      [lia|done].
  - cbn [evict_loop]. destruct f2 as [|f2]; cbn [evict_loop].
    { destruct (Z.gtb_spec (Z.of_nat (expirationHeap.Len (expHeap l))) (size l));
        [lia|done]. }
    destruct (_ >? _)%Z; [|done].
    destruct (heap.Pop (expHeap l)) as [[k h]|] eqn:Hp; [|done].
    apply heap_Pop_inv in Hp as (_ & Hperm & _).
    destruct (removeItem_items (with_expHeap l h) k) as [Hit Hsz].
    destruct (removeItem (with_expHeap l h) k) as [l1 c1]; simpl in Hit, Hsz.
    unfold expirationHeap.Len in *. rewrite Hperm in H1, H2. simpl in H1, H2.
    rewrite (IH f2 l1); [done|lia|rewrite Hit; lia|rewrite Hit; lia].
Qed.

(** The sweep gives the same result with any number of rounds from
    [Len] on. *)
Lemma sweep_loop_fuel f1 f2 l now :
  expirationHeap.Len (expHeap l) <= f1 ->
  expirationHeap.Len (expHeap l) <= f2 ->
  sweep_loop f1 l now = sweep_loop f2 l now.
Proof.
  revert f2 l; induction f1 as [|f1 IH]; intros f2 l H1 H2.
  - destruct f2 as [|f2]; [done|]. cbn [sweep_loop].
    unfold expirationHeap.Len in H1.
    destruct (items (expHeap l)); [done|simpl in H1; lia].
  - cbn [sweep_loop]. destruct f2 as [|f2]; cbn [sweep_loop].
    { unfold expirationHeap.Len in H2.
      destruct (items (expHeap l)); [done|simpl in H2; lia]. }
    destruct (items (expHeap l)) as [|k0 its] eqn:Hits; [done|].
    destruct (_ <? _)%Z; [|done].
    destruct (heap.Pop (expHeap l)) as [[k h]|] eqn:Hp; [|done].
    apply heap_Pop_inv in Hp as (_ & Hperm & _).
    destruct (removeItem_items (with_expHeap l h) k) as [Hit _].
    destruct (removeItem (with_expHeap l h) k) as [l1 c1]; simpl in Hit.
    unfold expirationHeap.Len in *. rewrite Hperm in H1, H2. simpl in H1, H2.
    rewrite (IH f2 l1); [done|rewrite Hit; lia|rewrite Hit; lia].
Qed.
(** *** Properties of the codec *)

Lemma deserialize_never_fails data : exists v, deserialize data = inl v.
Proof.
  unfold deserialize.
  destruct (strconv.Atoi data); [eauto|].
  destruct (ParseFloat data); [eauto|].
  destruct (strconv.ParseBool data); [eauto|].
  destruct (json_Unmarshal data); eauto.
Qed.

(** C7: [deserialize] returns exactly the value the precedence
    integer, float, boolean, JSON, raw text selects, for every byte
    sequence; the bytes "42" decode as the integer 42 and not as a
    string. *)
Theorem deserialize_precedence :
  (forall data v, deserialize data = inl v <-> decodes_as data v) /\
  deserialize "42" = inl (VInt 42) /\
  deserialize "42" <> inl (VString "42").
Proof.
  split; [|split; [reflexivity | discriminate]].
  intros data v; unfold deserialize; split.
  - destruct (strconv.Atoi data) as [i|] eqn:Hi.
    { intros [= <-]. by constructor. }
    destruct (ParseFloat data) as [f|] eqn:Hf.
    { intros [= <-]. by constructor. }
    destruct (strconv.ParseBool data) as [b|] eqn:Hb.
    { intros [= <-]. by constructor. }
    destruct (json_Unmarshal data) as [w|] eqn:Hj.
    { intros [= <-]. by constructor. }
    intros [= <-]. by constructor.
  - intros H; destruct H as [i Hi|f Hi Hf|b Hi Hf Hb|w Hi Hf Hb Hj|Hi Hf Hb Hj];
      rewrite ?Hi, ?Hf, ?Hb, ?Hj; reflexivity.
Qed.

(** *** [strconv.Atoi] reads back what [%d] prints *)

Lemma digit_val_digit_char d :
  (0 <= d < 10)%Z -> strconv.digit_val (fmt.digit_char d) = Some d.
Proof.
  intros Hd.
  assert (d = 0 \/ d = 1 \/ d = 2 \/ d = 3 \/ d = 4 \/ d = 5 \/ d = 6 \/
          d = 7 \/ d = 8 \/ d = 9)%Z as Hc by lia.
  repeat (destruct Hc as [->|Hc]; [reflexivity|]). by subst.
Qed.

Lemma parse_digits_app s1 s2 n :
  strconv.parse_digits (s1 +:+ s2) n =
    match strconv.parse_digits s1 n with
    | Some m => strconv.parse_digits s2 m
    | None => None
    end.
Proof.
  revert n; induction s1 as [|c s1 IH]; intros n; simpl; [done|].
  destruct (strconv.digit_val c); [apply IH|done].
Qed.

Lemma parse_digits_digits fuel n :
  (0 <= n < 2 ^ Z.of_nat fuel)%Z ->
  strconv.parse_digits (fmt.digits fuel n) 0 = Some n.
Proof.
  revert n; induction fuel as [|fuel IH]; intros n Hn.
  { simpl in *. f_equal. lia. }
  cbn [fmt.digits]. destruct (Z.ltb_spec n 10) as [Hlt|Hge].
  - simpl. rewrite digit_val_digit_char by lia. done.
  - rewrite parse_digits_app, IH.
    + simpl. rewrite digit_val_digit_char by (apply Z.mod_pos_bound; lia).
      f_equal. pose proof (Z.div_mod n 10). lia.
    + rewrite Nat2Z.inj_succ, Z.pow_succ_r in Hn by lia.
      split; [apply Z.div_pos; lia|].
      apply Z.div_lt_upper_bound; lia.
Qed.

Lemma digits_first fuel n :
  (0 <= n)%Z ->
  exists c rest d, fmt.digits (S fuel) n = String c rest /\
    strconv.digit_val c = Some d.
Proof.
  revert n; induction fuel as [|fuel IH]; intros n Hn.
  - cbn [fmt.digits]. destruct (Z.ltb_spec n 10).
    + eexists _, _, _. split; [done|]. by apply digit_val_digit_char; lia.
    + simpl. eexists _, _, _. split; [done|].
      apply digit_val_digit_char, Z.mod_pos_bound; lia.
  - remember (S fuel) as f. cbn [fmt.digits]. destruct (Z.ltb_spec n 10).
    + eexists _, _, _. split; [done|]. by apply digit_val_digit_char; lia.
    + subst f. destruct (IH (n / 10)%Z) as (c & rest & d & -> & Hd).
      { apply Z.div_pos; lia. }
      simpl. eauto.
Qed.

Lemma digit_not_sign c d :
  strconv.digit_val c = Some d ->
  Ascii.eqb c "-" = false /\ Ascii.eqb c "+" = false.
Proof.
  intros Hd. split.
  - destruct (Ascii.eqb_spec c "-") as [->|]; [discriminate|done].
  - destruct (Ascii.eqb_spec c "+") as [->|]; [discriminate|done].
Qed.

Lemma log2_fuel n : (0 <= n)%Z -> (0 <= n < 2 ^ Z.of_nat (S (Z.to_nat (Z.log2 n))))%Z.
Proof.
  intros Hn. split; [done|].
  rewrite Nat2Z.inj_succ, Z2Nat.id by apply Z.log2_nonneg.
  destruct (decide (n = 0%Z)) as [->|]; [done|].
  apply Z.log2_spec. lia.
Qed.

Lemma Atoi_minus c rest :
  strconv.Atoi (String "-" (String c rest)) =
    match strconv.parse_digits (String c rest) 0 with
    | None => None
    | Some n => in_int n true
    end.
Proof. reflexivity. Qed.

Lemma Atoi_unsigned c rest :
  Ascii.eqb c "-" = false -> Ascii.eqb c "+" = false ->
  strconv.Atoi (String c rest) =
    match strconv.parse_digits (String c rest) 0 with
    | None => None
    | Some n => in_int n false
    end.
Proof. intros Hm Hp. unfold strconv.Atoi. rewrite Hm, Hp. reflexivity. Qed.

(** For every [int], [Atoi] on its [%d] form gives it back. *)
Lemma Atoi_Sprintf_d v :
  (strconv.minInt <= v <= strconv.maxInt)%Z ->
  strconv.Atoi (fmt.Sprintf_d v) = Some v.
Proof.
  intros [Hlo Hhi]. unfold fmt.Sprintf_d.
  set (n := Z.abs v). set (fuel := Z.to_nat (Z.log2 n)).
  assert (0 <= n)%Z as Hn by (subst n; lia).
  pose proof (parse_digits_digits (S fuel) n (log2_fuel n Hn)) as Hparse.
  destruct (digits_first fuel n Hn) as (c & rest & d & Hs & Hd).
  destruct (digit_not_sign _ _ Hd) as [Hm Hp].
  rewrite Hs in Hparse |- *.
  destruct (Z.ltb_spec v 0) as [Hneg|Hpos].
  - rewrite Atoi_minus, Hparse. unfold in_int.
    assert ((- n)%Z = v) as -> by (subst n; lia).
    destruct (Z.leb_spec strconv.minInt v); [|lia].
    destruct (Z.leb_spec v strconv.maxInt); [|lia]. done.
  - rewrite Atoi_unsigned, Hparse by done. unfold in_int.
    assert (n = v) as -> by (subst n; lia).
    destruct (Z.leb_spec strconv.minInt v); [|lia].
    destruct (Z.leb_spec v strconv.maxInt); [|lia]. done.
Qed.

Lemma deserialize_int i :
  (strconv.minInt <= i <= strconv.maxInt)%Z ->
  deserialize (fmt.Sprintf_d i) = inl (VInt i).
Proof. intros Hi. unfold deserialize. by rewrite Atoi_Sprintf_d. Qed.

Lemma deserialize_bool b :
  ParseFloat (fmt.Sprintf_t b) = None ->
  deserialize (fmt.Sprintf_t b) = inl (VBool b).
Proof. intros Hf. unfold deserialize. destruct b; simpl in *; by rewrite Hf. Qed.


(** *** [Set] on distinct keys *)

Lemma evict_within_capacity l :
  (Z.of_nat (expirationHeap.Len (expHeap l)) <= size l)%Z -> evict l = (l, []).
Proof.
  intros Hle. unfold evict.
  destruct (expirationHeap.Len (expHeap l)) eqn:Hn; [done|].
  cbn [evict_loop]. rewrite Hn.
  by destruct (Z.gtb_spec (Z.of_nat (S n)) (size l)); [lia|].
Qed.

Lemma evict_one_over l :
  fresh_state l ->
  Z.of_nat (expirationHeap.Len (expHeap l)) = (size l + 1)%Z ->
  exists e h,
    heap.Pop (expHeap l) = Some (e, h) /\
    items (expHeap l) !! 0 = Some e /\
    evict l =
      (delete_expiresAt (with_db (with_expHeap l h) (delete e (db l))) e,
       evict_calls l e).
Proof.
  intros (Hinv & Hord & Hnd & Hin) Hlen.
  pose proof Hinv as (Hs & H1 & _).
  assert (items (expHeap l) <> []) as Hne.
  { intros He. unfold expirationHeap.Len in Hlen. rewrite He in Hlen.
    simpl in Hlen. lia. }
  destruct (heap_Pop_Some _ Hne) as (e & h & Hp & Hroot & Hperm & Hex).
  exists e, h. split_and!; [done..|].
  unfold evict. destruct (expirationHeap.Len (expHeap l)) as [|n] eqn:Hn; [lia|].
  cbn [evict_loop]. rewrite Hn, Hp.
  destruct (Z.gtb_spec (Z.of_nat (S n)) (size l)); [|lia].
  assert (e ∈ items (expHeap l)) as He by (by eapply list_elem_of_lookup_2).
  destruct (Hin _ He) as [it Hit].
  destruct (H1 _ _ Hit) as (Hnee & _).
  rewrite (removeItem_present (with_expHeap l h) e it Hnee Hit).
  assert (length (items h) = n) as Hlh.
  { unfold expirationHeap.Len in Hn. rewrite Hperm in Hn. simpl in Hn. lia. }
  destruct n as [|n]; cbn [evict_loop]; [by rewrite app_nil_r|].
  cbn [delete_expiresAt with_db with_expHeap expHeap size items].
  unfold expirationHeap.Len; cbn [items]. rewrite Hlh.
  destruct (Z.gtb_spec (Z.of_nat (S n)) (size l)); [lia|].
  by rewrite app_nil_r.
Qed.

(** The state [Set] hands to the eviction loop. *)
Lemma LRU_Set_fresh l key v ttl now data :
  fresh_state l -> key ∉ items (expHeap l) -> key <> ""%string ->
  (0 < ttl)%Z -> serialize v = Some data ->
  exists l2,
    LRU_Set l key v ttl now = (let '(l', c) := evict l2 in (l', c, None)) /\
    fresh_state l2 /\
    size l2 = size l /\ opts l2 = opts l /\
    items (expHeap l2) ≡ₚ key :: items (expHeap l) /\
    db l2 = <[key := {| Key := key; Value := data; ExpiresAt := now + ttl |}]> (db l).
Proof.
  intros (Hinv & Hord & Hnd & Hin) Hnin Hne Httl Hser.
  eexists. split.
  { unfold LRU_Set. destruct (Z.leb_spec ttl 0); [lia|]. rewrite Hser.
    unfold memdb.Insert; cbn [Key].
    destruct (String.eqb_spec key ""); [done|]. reflexivity. }
  cbn [with_expHeap with_db size opts db expHeap].
  split_and!; [|done|done|by rewrite heap_Push_perm|done].
  split_and!.
  - apply cache_inv_tracked in Hinv as [Hs Ht].
    apply cache_inv_tracked; split; [done|].
    cbn [db expHeap with_expHeap with_db].
    rewrite heap_Push_expiresAt; cbn [expiresAt].
    eapply tracked_insert; [exact Ht|done|].
    intros k Hk. by rewrite heap_Push_perm.
  - cbn [expHeap with_expHeap]. apply heap_Push_ordered.
    by apply heap_ordered_insert_fresh.
  - cbn [expHeap with_expHeap]. rewrite heap_Push_perm; cbn [items].
    by apply NoDup_cons.
  - cbn [expHeap db with_expHeap with_db]. intros k.
    rewrite heap_Push_perm; cbn [items].
    intros [->|Hk]%elem_of_cons.
    + by rewrite lookup_insert_eq.
    + destruct (decide (key = k)) as [->|]; [done|].
      rewrite lookup_insert_ne by done. auto.
Qed.

Lemma set_all_app l a b :
  set_all l (a ++ b) =
    let '(l1, c1, e1) := set_all l a in
    let '(l2, c2, e2) := set_all l1 b in
    (l2, c1 ++ c2, e1 ++ e2).
Proof.
  revert l; induction a as [|s a IH]; intros l; simpl.
  - by destruct (set_all l b) as [[??]?].
  - destruct (LRU_Set _ _ _ _ _) as [[l1 c1] e1].
    rewrite IH. destruct (set_all l1 a) as [[l2 c2] e2].
    destruct (set_all l2 b) as [[l3 c3] e3]. by rewrite app_assoc.
Qed.

(** While the capacity is not exceeded, [Set] on keys that are new and
    distinct stores every item, evicts nothing and returns nil. *)
Lemma set_all_within_capacity sets l :
  fresh_state l ->
  NoDup (set_key <$> sets) ->
  (forall s, s ∈ sets -> set_key s ∉ items (expHeap l)) ->
  Forall valid_set sets ->
  (Z.of_nat (length (items (expHeap l)) + length sets) <= size l)%Z ->
  exists l',
    set_all l sets = (l', [], replicate (length sets) None) /\
    fresh_state l' /\ size l' = size l /\ opts l' = opts l /\
    items (expHeap l') ≡ₚ rev (set_key <$> sets) ++ items (expHeap l) /\
    (forall s, s ∈ sets -> exists data,
       serialize (set_value s) = Some data /\
       db l' !! set_key s =
         Some {| Key := set_key s; Value := data; ExpiresAt := set_expires s |}) /\
    (forall k, k ∉ set_key <$> sets -> db l' !! k = db l !! k).
Proof.
  revert l; induction sets as [|s sets IH]; intros l Hf Hnd Hnew Hval Hcap.
  { exists l. split_and!; try done. intros s Hs. by apply elem_of_nil in Hs. }
  apply NoDup_cons in Hnd as [Hs_nin Hnd]. fold (fmap set_key sets) in *.
  apply Forall_cons in Hval as [(Hne & Httl & [data Hser]) Hval].
  destruct (LRU_Set_fresh l (set_key s) (set_value s) (set_ttl s) (set_now s) data)
    as (l2 & Hset & Hf2 & Hsz2 & Ho2 & Hit2 & Hdb2); [done| |done..|].
  { apply Hnew. left. }
  simpl in Hcap.
  rewrite evict_within_capacity in Hset.
  2:{ unfold expirationHeap.Len. rewrite Hit2, Hsz2. simpl. lia. }
  destruct (IH l2) as (l' & Hall & Hf' & Hsz' & Ho' & Hit' & Hdb' & Hother);
    [done|done| |done| |].
  { intros s' Hs'. rewrite Hit2. intros [Heq|Hin]%elem_of_cons.
    - apply Hs_nin. rewrite <- Heq. by apply list_elem_of_fmap_2.
    - eapply Hnew; [|done]. by right. }
  { rewrite Hit2, Hsz2. simpl. lia. }
  exists l'. cbn [set_all]. rewrite Hset, Hall. cbn [length replicate].
  split_and!; [done|done|congruence|congruence| | |].
  - rewrite Hit', Hit2, fmap_cons. simpl. by rewrite <- app_assoc.
  - intros s' [->|Hs']%elem_of_cons; [|by auto].
    exists data. split; [done|].
    rewrite Hother by done. rewrite Hdb2. by rewrite lookup_insert_eq.
  - intros k Hk. apply not_elem_of_cons in Hk as [Hk1 Hk2].
    rewrite Hother by done. rewrite Hdb2. by rewrite lookup_insert_ne.
Qed.


Lemma reachable_set_all l sets :
  reachable l -> reachable (set_all l sets).1.1.
Proof.
  revert l; induction sets as [|s sets IH]; intros l Hr; simpl; [done|].
  pose proof (reachable_run l (OpSet (set_key s) (set_value s) (set_ttl s))
                (set_now s) Hr) as H1. simpl in H1.
  destruct (LRU_Set _ _ _ _ _) as [[l1 c1] e1]. simpl in H1.
  specialize (IH l1 H1). by destruct (set_all l1 sets) as [[l2 c2] es].
Qed.

Lemma reachable_cache3_k : reachable cache3_k.
Proof.
  apply (reachable_run cache3 (OpSet "k" (VInt 7) 10) 1).
  by apply (reachable_new 3 (opts cache3)).
Qed.

Lemma NewLRUWithTTL_fresh c o l :
  NewLRUWithTTL c o = inl l ->
  fresh_state l /\ items (expHeap l) = [] /\ size l = c /\ opts l = o.
Proof.
  intros Hnew. pose proof (NewLRUWithTTL_inv _ _ _ Hnew) as Hinv.
  unfold NewLRUWithTTL in Hnew. destruct (c <=? 0)%Z; [done|].
  injection Hnew as <-. split; [|done]. split; [done|]. simpl. split_and!.
  - intros j a b _ Hb. simpl in Hb. by rewrite lookup_nil in Hb.
  - constructor.
  - intros k Hk. by apply elem_of_nil in Hk.
Qed.

Lemma fresh_state_size l :
  fresh_state l -> base.size (db l) = length (items (expHeap l)).
Proof.
  intros ((_ & H1 & _) & _ & Hnd & Hin).
  rewrite <- (size_dom (D := gset string)).
  rewrite <- (size_list_to_set (C := gset string)) by done.
  f_equal. apply set_eq; intros k.
  rewrite elem_of_dom, elem_of_list_to_set. split; [|by auto].
  intros [it Hk]. by destruct (H1 _ _ Hk) as (_ & _ & _ & ?).
Qed.

Lemma LRU_Len_size l : LRU_Len l = base.size (db l).
Proof. unfold LRU_Len, memdb.Get. by rewrite length_fmap, length_map_to_list. Qed.

(** X20: from a new cache of capacity [c], [Set] on [c + 1] distinct
    keys (each call valid) returns nil every time and calls the
    eviction callback, if there is one, exactly once, with the key of
    a call [e] whose expiration is the earliest of all [c + 1]; after
    it [Len] is [c], [Get] on the key of [e] fails with
    [ErrItemNotFound], and [Get] on each of the other [c] keys, at a
    time not after its expiration, returns its decoded value. *)
Theorem capacity_plus_one_evicts_earliest c o l0 sets :
  NewLRUWithTTL c o = inl l0 ->
  Z.of_nat (length sets) = (c + 1)%Z ->
  NoDup (set_key <$> sets) ->
  Forall valid_set sets ->
  exists l e,
    set_all l0 sets =
      (l, (if EvictCallback o then [(set_key e, VNil)] else []),
       replicate (length sets) None) /\
    e ∈ sets /\
    (forall s, s ∈ sets -> (set_expires e <= set_expires s)%Z) /\
    Z.of_nat (LRU_Len l) = c /\
    (forall now, LRU_Get l (set_key e) now = (l, [], inr ErrItemNotFound)) /\
    (forall s now, s ∈ sets -> set_key s <> set_key e ->
       ~ (set_expires s < now)%Z ->
       exists data, serialize (set_value s) = Some data /\
         LRU_Get l (set_key s) now = (l, [], deserialize data)).
Proof.
  intros Hnew Hlen Hnd Hval.
  destruct (NewLRUWithTTL_fresh _ _ _ Hnew) as (Hf0 & Hit0 & Hsz0 & Ho0).
  assert (0 < c)%Z as Hc by (destruct Hf0 as ((? & _) & _); lia).
  destruct sets as [|last init _] using rev_ind; [simpl in Hlen; lia|].
  rewrite length_app in Hlen; simpl in Hlen.
  rewrite fmap_app in Hnd. apply NoDup_app in Hnd as (Hnd_init & Hdisj & _).
  apply Forall_app in Hval as [Hval_init Hval_last].
  apply Forall_singleton in Hval_last as (Hne & Httl & [data Hser]).
  (* the first c calls *)
  destruct (set_all_within_capacity init l0)
    as (l1 & Hall1 & Hf1 & Hsz1 & Ho1 & Hit1 & Hdb1 & Hother1); [done|done| |done| |].
  { intros s _. rewrite Hit0. apply not_elem_of_nil. }
  { rewrite Hit0, Hsz0; simpl. lia. }
  rewrite Hit0, app_nil_r in Hit1.
  assert (set_key last ∉ items (expHeap l1)) as Hlast_new.
  { rewrite Hit1, <- Permutation_rev.
    intros Hin. apply (Hdisj _ Hin). simpl. left. }
  (* the last call, up to the eviction loop *)
  destruct (LRU_Set_fresh l1 (set_key last) (set_value last) (set_ttl last)
              (set_now last) data)
    as (l2 & Hset & Hf2 & Hsz2 & Ho2 & Hit2 & Hdb2); [done..|].
  assert (length (items (expHeap l2)) = S (length init)) as Hlen2.
  { rewrite Hit2, Hit1. simpl. by rewrite length_rev, length_fmap. }
  destruct (evict_one_over l2 Hf2) as (ek & h & Hpop & Hroot & Hev).
  { unfold expirationHeap.Len. rewrite Hlen2, Hsz2, Hsz1, Hsz0. lia. }
  rewrite Hev in Hset.
  (* every call is stored in l2 under its key, with its expiration *)
  assert (Hstored : forall s, s ∈ init ++ [last] -> exists d,
            serialize (set_value s) = Some d /\
            db l2 !! set_key s =
              Some {| Key := set_key s; Value := d; ExpiresAt := set_expires s |}).
  { intros s [Hs|Hs]%elem_of_app.
    - destruct (Hdb1 _ Hs) as (d & Hd & Hk). exists d; split; [done|].
      rewrite Hdb2, lookup_insert_ne; [done|].
      intros Heq. apply (Hdisj (set_key s)).
      + by apply list_elem_of_fmap_2.
      + rewrite <- Heq. simpl. left.
    - apply list_elem_of_singleton in Hs as ->. exists data; split; [done|].
      by rewrite Hdb2, lookup_insert_eq. }
  assert (Hat : forall s, s ∈ init ++ [last] ->
            expirationHeap.at_ (expHeap l2) (set_key s) = set_expires s).
  { intros s Hs. destruct (Hstored _ Hs) as (d & _ & Hk).
    pose proof Hf2 as ((_ & H1 & _) & _).
    destruct (H1 _ _ Hk) as (_ & _ & Hexp & _).
    unfold expirationHeap.at_. by rewrite Hexp. }
  assert (Hkeys : forall k, k ∈ items (expHeap l2) ->
            exists s, s ∈ init ++ [last] /\ set_key s = k).
  { intros k. rewrite Hit2, Hit1. intros [->|Hk]%elem_of_cons.
    - exists last. split; [|done]. apply elem_of_app. right. left.
    - rewrite <- Permutation_rev in Hk.
      apply list_elem_of_fmap in Hk as (s & -> & Hs).
      exists s. split; [|done]. apply elem_of_app. by left. }
  destruct (Hkeys ek) as (e & He & <-); [by eapply list_elem_of_lookup_2|].
  set (l3 := delete_expiresAt (with_db (with_expHeap l2 h)
               (delete (set_key e) (db l2))) (set_key e)) in *.
  exists l3, e. split_and!.
  - rewrite set_all_app, Hall1. cbn [set_all]. rewrite Hset.
    rewrite length_app, replicate_add. simpl.
    unfold evict_calls. by rewrite Ho2, Ho1, Ho0, app_nil_r.
  - done.
  - intros s Hs. rewrite <- (Hat e He), <- (Hat s Hs).
    pose proof Hf2 as ((_ & H1 & _) & Hord & _).
    apply heap_ordered_root_min; [done..|].
    destruct (Hstored _ Hs) as (d & _ & Hk).
    by destruct (H1 _ _ Hk) as (_ & _ & _ & ?).
  - rewrite LRU_Len_size. subst l3; simpl.
    destruct (Hstored _ He) as (d & _ & Hk).
    rewrite map_size_delete_Some by eauto.
    rewrite (fresh_state_size l2 Hf2), Hlen2. simpl. lia.
  - intros now. unfold LRU_Get, memdb.First. subst l3; simpl.
    by rewrite lookup_delete_eq.
  - intros s now Hs Hse Hlive.
    destruct (Hstored _ Hs) as (d & Hd & Hk). exists d; split; [done|].
    unfold LRU_Get, memdb.First. subst l3; simpl.
    rewrite lookup_delete_ne by done. rewrite Hk; simpl.
    destruct (Z.gtb_spec now (set_expires s)); [lia|].
    by destruct (deserialize_never_fails d) as [w ->].
Qed.

(** *** The claims on the operations *)

(** C3: in a reachable state, [Get] on a stored key whose expiration
    is earlier than the current time fails with [ErrItemExpired],
    removes the item (calling the eviction callback, if any, for that
    key), and [Get] on the same key right after fails with
    [ErrItemNotFound]. *)
Theorem LRU_Get_expired_then_not_found l key now now' item :
  reachable l -> db l !! key = Some item -> (ExpiresAt item < now)%Z ->
  exists l',
    LRU_Get l key now = (l', evict_calls l key, inr ErrItemExpired) /\
    db l' = delete key (db l) /\
    expiresAt (expHeap l') = delete key (expiresAt (expHeap l)) /\
    LRU_Get l' key now' = (l', [], inr ErrItemNotFound).
Proof.
  intros Hr Hk Hexp. apply reachable_inv in Hr as (_ & H1 & _).
  destruct (H1 _ _ Hk) as (Hne & _).
  eexists. unfold LRU_Get at 1, memdb.First. rewrite Hk.
  destruct (Z.gtb_spec now (ExpiresAt item)); [|lia].
  rewrite (removeItem_present _ _ _ Hne Hk).
  split_and!; [done..|].
  unfold LRU_Get, memdb.First; simpl. by rewrite lookup_delete_eq.
Qed.


(** C8: [Set] with [ttl <= 0] fails with the error "ttl must be
    positive", and whenever [Set] returns an error, whichever it is,
    the state is the one before the call and no callback was
    called. *)
Theorem LRU_Set_all_or_nothing l key v ttl now :
  ((ttl <= 0)%Z ->
     LRU_Set l key v ttl now = (l, [], Some ErrTTLNotPositive)) /\
  (forall l' calls e,
     LRU_Set l key v ttl now = (l', calls, Some e) -> l' = l /\ calls = []).
Proof.
  unfold LRU_Set. split.
  - intros Hle. by destruct (Z.leb_spec ttl 0); [|lia].
  - intros l' calls e.
    destruct (ttl <=? 0)%Z; [by intros [= <- <- _]|].
    destruct (serialize v) as [data|]; [|by intros [= <- <- _]].
    destruct (memdb.Insert _ _) as [t|e']; [|by intros [= <- <- _]].
    destruct (evict _). done.
Qed.

(** C9: [Get] on a stored key that is not expired returns the decoded
    value and leaves the whole state as it was, without any callback
    call. *)
Theorem LRU_Get_live_unchanged l key now item :
  db l !! key = Some item -> ~ (ExpiresAt item < now)%Z ->
  exists v, deserialize (Value item) = inl v /\
    LRU_Get l key now = (l, [], inl v).
Proof.
  intros Hk Hlive. destruct (deserialize_never_fails (Value item)) as [v Hv].
  exists v. split; [done|].
  unfold LRU_Get, memdb.First. rewrite Hk.
  destruct (Z.gtb_spec now (ExpiresAt item)); [lia|]. by rewrite Hv.
Qed.

(** C10: [Delete] and [Clear] make no callback call; every call an
    operation makes has the value nil and names a key that the
    operation removed from the store, and the operation is a [Set]
    (capacity eviction), the sweep, or a [Get] of that key that
    returns [ErrItemExpired]. *)
Theorem callback_only_on_internal_removal :
  (forall l key, (LRU_Delete l key).1.2 = []) /\
  (forall l, (LRU_Clear l).1.2 = []) /\
  (forall l o now k v, (k, v) ∈ (run l o now).2 ->
     v = VNil /\ db (run l o now).1 !! k = None /\
     match o with
     | OpSet _ _ _ | OpSweep => True
     | OpGet key => key = k /\ (LRU_Get l key now).2 = inr ErrItemExpired
     | OpDelete _ | OpClear => False
     end).
Proof.
  assert (Hd : forall l key, (LRU_Delete l key).1.2 = []).
  { intros l key. unfold LRU_Delete. by destruct (memdb.Delete _ _). }
  assert (Hc : forall l, (LRU_Clear l).1.2 = []).
  { intros l. unfold LRU_Clear. by destruct (delete_rows _ _). }
  split_and!; [done..|].
  intros l o now k v Hin. destruct o as [key w ttl|key|key| |]; simpl in *.
  - by destruct (LRU_Set_calls _ _ _ _ _ _ _ Hin).
  - destruct (LRU_Get_calls _ _ _ _ _ Hin) as (? & ? & ? & ?). done.
  - rewrite Hd in Hin. by apply elem_of_nil in Hin.
  - rewrite Hc in Hin. by apply elem_of_nil in Hin.
  - pose proof (sweep_loop_calls (expirationHeap.Len (expHeap l)) l now) as [_ Hf].
    rewrite Forall_forall in Hf. destruct (Hf _ Hin). done.
Qed.

(** C1, on the code: after [Set] twice on the same key the store holds
    the key once, with the second expiration, and the heap's [items]
    hold it twice; after [Set] and [Delete] of a key the store and the
    [expiresAt] map are empty and the heap's [items] still hold the
    key. *)
Theorem set_twice_tracks_key_twice :
  NewLRUWithTTL 3 (opts cache3) = inl cache3 /\
  (let r1 := LRU_Set cache3 "a" (VInt 1) 100 1 in
   let r2 := LRU_Set r1.1.1 "a" (VInt 2) 100 2 in
   r1.2 = None /\ r2.2 = None /\
   map_to_list (db r2.1.1) =
     [("a"%string, {| Key := "a"; Value := "2"; ExpiresAt := 102 |})] /\
   map_to_list (expiresAt (expHeap r2.1.1)) = [("a"%string, 102%Z)] /\
   items (expHeap r2.1.1) = ["a"; "a"]%string) /\
  (let r1 := LRU_Set cache3 "a" (VInt 1) 100 1 in
   let r2 := LRU_Delete r1.1.1 "a" in
   r1.2 = None /\ r2.2 = None /\
   db r2.1.1 = ∅ /\ expiresAt (expHeap r2.1.1) = ∅ /\
   items (expHeap r2.1.1) = ["a"%string]).
Proof. split_and!; by vm_compute. Qed.

(** C6, on the code: after [Set] of "a" (expiring at 101), of "b" (at
    201) and of "a" again (now at 1002), popping the heap until it is
    empty yields "a", "b", "a", whose recorded expirations 1002, 201,
    1002 go down; the sweep at a later time calls the callback for
    "a" before "b". *)
Theorem set_again_breaks_pop_order :
  let l3 := (set_all cache3
               [ {| set_key := "a"; set_value := VInt 1; set_ttl := 100; set_now := 1 |};
                 {| set_key := "b"; set_value := VInt 2; set_ttl := 200; set_now := 1 |};
                 {| set_key := "a"; set_value := VInt 3; set_ttl := 1000; set_now := 2 |} ]).1.1 in
  reachable l3 /\
  pop_all 3 (expHeap l3) = ["a"; "b"; "a"]%string /\
  expirationHeap.at_ (expHeap l3) <$> pop_all 3 (expHeap l3) = [1002; 201; 1002]%Z /\
  (removeExpiredItems l3 5000).2 = [("a"%string, VNil); ("b"%string, VNil)].
Proof.
  split_and!; [|by vm_compute..].
  apply reachable_set_all. by apply (reachable_new 3 (opts cache3)).
Qed.

(** The three ways [Set] fails, each on the new cache. *)
Lemma LRU_Set_failure_modes :
  LRU_Set cache3 "k" (VInt 1) 0 1 = (cache3, [], Some ErrTTLNotPositive) /\
  LRU_Set cache3 "k" (VOther None) 10 1 = (cache3, [], Some ErrSerialize) /\
  LRU_Set cache3 "" (VInt 1) 10 1 =
    (cache3, [], Some (ErrInsert memdb.ErrMissingPrimaryIndex)).
Proof. split_and!; reflexivity. Qed.

(** *** container/heap: [down] restores the heap condition *)

(** From here on a lemma depends on the library functions of the
    section only where its statement names them. *)
Set Default Proof Using "Type".

Lemma parent_child j i :
  0 < j -> (j - 1) / 2 = i -> j = 2 * i + 1 \/ j = 2 * i + 2.
Proof.
  intros Hj <-. pose proof (Nat.div_mod_eq (j - 1) 2).
  pose proof (Nat.mod_upper_bound (j - 1) 2). lia.
Qed.

Lemma parent_of_left i : (2 * i + 1 - 1) / 2 = i.
Proof.
  replace (2 * i + 1 - 1) with (i * 2) by lia. apply Nat.div_mul. lia.
Qed.

Lemma parent_of_right i : (2 * i + 1 + 1 - 1) / 2 = i.
Proof.
  replace (2 * i + 1 + 1 - 1) with (1 + i * 2) by lia.
  rewrite Nat.div_add by lia. reflexivity.
Qed.

Lemma at_same_expiresAt h h' k :
  expiresAt h = expiresAt h' ->
  expirationHeap.at_ h k = expirationHeap.at_ h' k.
Proof. unfold expirationHeap.at_. by intros ->. Qed.

Lemma ordered_below_swap h n i j a b :
  i < j -> j < n -> (j - 1) / 2 = i ->
  items h !! i = Some a -> items h !! j = Some b ->
  (expirationHeap.at_ h b < expirationHeap.at_ h a)%Z ->
  (forall k c, 0 < k -> k < n -> (k - 1) / 2 = i -> items h !! k = Some c ->
     (expirationHeap.at_ h b <= expirationHeap.at_ h c)%Z) ->
  ordered_below h n i ->
  ordered_below (expirationHeap.Swap h i j) n j.
Proof.
  intros Hij Hjn Hpj Ha Hb Hlt Hmin [H1 H2]. split.
  - intros k x y Hk Hkn Hpk. rewrite !(Swap_lookup h i j a b) by done.
    rewrite !Swap_at. pose proof (parent_lt k Hk) as Hpk'.
    destruct (decide (k = i)) as [->|Hki].
    + intros [= <-].
      rewrite (decide_False (P := (i - 1) / 2 = i)) by lia.
      rewrite (decide_False (P := (i - 1) / 2 = j)) by lia.
      intros Hx. by apply (H2 j).
    + destruct (decide (k = j)) as [->|Hkj].
      * intros [= <-]. rewrite decide_True by done. intros [= <-]. lia.
      * intros Hy. rewrite (decide_False (P := (k - 1) / 2 = j)) by done.
        destruct (decide ((k - 1) / 2 = i)) as [Hpi|Hpi].
        -- intros [= <-]. by apply (Hmin k).
        -- intros Hx. by apply (H1 k).
  - intros k x y Hj Hkn Hpk. rewrite !(Swap_lookup h i j a b) by done.
    rewrite !Swap_at.
    assert (0 < k) as Hk by (pose proof (parent_le k); lia).
    pose proof (parent_lt k Hk).
    rewrite (decide_False (P := k = i)) by lia.
    rewrite (decide_False (P := k = j)) by lia.
    rewrite Hpj, decide_True by done.
    intros Hy [= <-]. apply (H1 k); [done|done|lia|done|by rewrite Hpk].
Qed.

Lemma down_loop_ordered fuel h i n :
  n - i <= fuel -> n <= length (items h) ->
  ordered_below h n i -> prefix_ordered (heap.down_loop fuel h i n) n.
Proof.
  revert h i; induction fuel as [|fuel IH]; intros h i Hf Hlen [H1 H2].
  { intros k x y Hk Hkn. pose proof (parent_lt k Hk). apply H1; lia. }
  cbn [heap.down_loop]. destruct (Nat.leb_spec n (2 * i + 1)) as [Hn|Hn].
  { intros k x y Hk Hkn. apply H1; [done..|].
    intros Hp. destruct (parent_child k i Hk Hp); lia. }
  set (j1 := 2 * i + 1) in *.
  destruct (lookup_lt_is_Some_2 (items h) i) as [a Ha]; [lia|].
  destruct (lookup_lt_is_Some_2 (items h) j1) as [c1 Hc1]; [lia|].
  set (j := if (j1 + 1 <? n) && expirationHeap.Less h (j1 + 1) j1
            then j1 + 1 else j1).
  assert (exists b, items h !! j = Some b /\ i < j /\ j < n /\ (j - 1) / 2 = i /\
            forall k c, 0 < k -> k < n -> (k - 1) / 2 = i -> items h !! k = Some c ->
              (expirationHeap.at_ h b <= expirationHeap.at_ h c)%Z)
    as (b & Hb & Hij & Hjn & Hpj & Hmin).
  { subst j. destruct (Nat.ltb_spec (j1 + 1) n) as [H2n|H2n]; cbn [andb].
    - destruct (lookup_lt_is_Some_2 (items h) (j1 + 1)) as [c2 Hc2]; [lia|].
      destruct (expirationHeap.Less h (j1 + 1) j1) eqn:Hless;
        unfold expirationHeap.Less in Hless; rewrite Hc2, Hc1 in Hless.
      + apply Z.ltb_lt in Hless. exists c2.
        split_and!; [done|lia|lia|apply parent_of_right|].
        intros k c Hk Hkn Hp Hc.
        destruct (parent_child k i Hk Hp) as [->| ->].
        * fold j1 in Hc. simplify_eq. lia.
        * replace (2 * i + 2) with (j1 + 1) in Hc by lia. simplify_eq. lia.
      + apply Z.ltb_ge in Hless. exists c1.
        split_and!; [done|lia|lia|apply parent_of_left|].
        intros k c Hk Hkn Hp Hc.
        destruct (parent_child k i Hk Hp) as [->| ->].
        * fold j1 in Hc. simplify_eq. lia.
        * replace (2 * i + 2) with (j1 + 1) in Hc by lia. simplify_eq. lia.
    - exists c1. split_and!; [done|lia|lia|apply parent_of_left|].
      intros k c Hk Hkn Hp Hc.
      destruct (parent_child k i Hk Hp) as [->| ->]; [|lia].
      fold j1 in Hc. simplify_eq. lia. }
  destruct (expirationHeap.Less h j i) eqn:Hless; cbn [negb];
    unfold expirationHeap.Less in Hless; rewrite Hb, Ha in Hless.
  - apply Z.ltb_lt in Hless.
    apply IH; [lia|rewrite Swap_length; lia|].
    by apply (ordered_below_swap h n i j a b).
  - apply Z.ltb_ge in Hless. intros k x y Hk Hkn Hy Hx.
    destruct (decide ((k - 1) / 2 = i)) as [Hp|Hp].
    + rewrite Hp in Hx. simplify_eq. pose proof (Hmin k y Hk Hkn Hp Hy). lia.
    + by apply (H1 k).
Qed.

(** [heap.Pop] keeps the heap condition. *)
Lemma heap_Pop_ordered h x h' :
  heap_ordered h -> heap.Pop h = Some (x, h') -> heap_ordered h'.
Proof.
  intros Hord. unfold heap.Pop, expirationHeap.Len.
  destruct (length (items h)) as [|n] eqn:Hlen; [done|].
  set (h1 := expirationHeap.Swap h 0 n).
  set (h2 := heap.down h1 0 n). intros Hpop.
  apply expirationHeap_Pop_Some in Hpop as [Hit Hex].
  destruct (lookup_lt_is_Some_2 (items h) 0) as [r Hr]; [lia|].
  destruct (lookup_lt_is_Some_2 (items h) n) as [y Hy]; [lia|].
  assert (length (items h2) = S n) as Hlen2.
  { subst h2 h1. unfold heap.down. by rewrite down_loop_perm, Swap_length. }
  assert (length (items h') = n) as Hlen'.
  { rewrite Hit, length_app in Hlen2. simpl in Hlen2. lia. }
  assert (prefix_ordered h2 n) as Hpre.
  { subst h2. unfold heap.down. apply down_loop_ordered.
    - lia.
    - subst h1. rewrite Swap_length. lia.
    - split; [|lia]. subst h1.
      intros k a b Hk Hkn Hp. rewrite !(Swap_lookup h 0 n r y) by done.
      rewrite !Swap_at. pose proof (parent_lt k Hk).
      rewrite (decide_False (P := k = 0)) by lia.
      rewrite (decide_False (P := k = n)) by lia.
      rewrite (decide_False (P := (k - 1) / 2 = 0)) by lia.
      rewrite (decide_False (P := (k - 1) / 2 = n)) by lia.
      by apply (Hord k). }
  intros k a b Hk Hb Ha.
  assert (k < n) by (apply lookup_lt_Some in Hb; lia).
  pose proof (parent_lt k Hk).
  rewrite !(at_same_expiresAt h' h2) by done.
  apply (Hpre k); [done|done| |].
  - rewrite Hit, lookup_app_l by lia. done.
  - rewrite Hit, lookup_app_l by lia. done.
Qed.

(** *** Duplicate-free states: pops, eviction and the sweep *)

Lemma heap_ordered_delete_absent h key :
  key ∉ items h -> heap_ordered h ->
  heap_ordered {| items := items h; expiresAt := delete key (expiresAt h) |}.
Proof.
  intros Hnin Hord j a b Hj Hb Ha; simpl in *.
  unfold expirationHeap.at_; simpl.
  rewrite !lookup_delete_ne.
  - by apply (Hord j).
  - intros ->. apply Hnin. by eapply list_elem_of_lookup_2.
  - intros ->. apply Hnin. by eapply list_elem_of_lookup_2.
Qed.

Lemma heap_ordered_same h h' :
  items h' = items h -> expiresAt h' = expiresAt h ->
  heap_ordered h -> heap_ordered h'.
Proof.
  intros Hi He Hord j a b Hj Hb Ha. rewrite Hi in Hb, Ha.
  rewrite !(at_same_expiresAt h' h) by done. by apply (Hord j).
Qed.

(** In a duplicate-free state the expiration the heap reads for a
    stored key is the one of its item. *)
Lemma fresh_state_at l k it :
  cache_inv l -> db l !! k = Some it ->
  expirationHeap.at_ (expHeap l) k = ExpiresAt it.
Proof.
  intros (_ & H1 & _) Hk. destruct (H1 _ _ Hk) as (_ & _ & He & _).
  unfold expirationHeap.at_. by rewrite He.
Qed.

(** One round of the eviction loop or of the sweep in a duplicate-free
    state: the key at the root is stored, so [removeItem] removes it. *)
Lemma pop_removeItem_fresh l :
  fresh_state l -> items (expHeap l) <> [] ->
  exists r h it,
    heap.Pop (expHeap l) = Some (r, h) /\
    items (expHeap l) !! 0 = Some r /\
    items (expHeap l) ≡ₚ r :: items h /\
    db l !! r = Some it /\
    (forall k, k ∈ items (expHeap l) ->
       (expirationHeap.at_ (expHeap l) r <= expirationHeap.at_ (expHeap l) k)%Z) /\
    removeItem (with_expHeap l h) r =
      (delete_expiresAt (with_db (with_expHeap l h) (delete r (db l))) r,
       evict_calls l r) /\
    fresh_state (delete_expiresAt (with_db (with_expHeap l h) (delete r (db l))) r).
Proof.
  intros Hf Hne. pose proof Hf as (Hinv & Hord & Hnd & Hin).
  destruct (heap_Pop_Some _ Hne) as (r & h & Hp & Hroot & Hperm & Hex).
  assert (r ∈ items (expHeap l)) as Hr by (by eapply list_elem_of_lookup_2).
  destruct (Hin _ Hr) as [it Hit].
  pose proof Hinv as (_ & H1 & _). destruct (H1 _ _ Hit) as (Hner & _).
  pose proof (removeItem_present (with_expHeap l h) r it Hner Hit) as Hrm.
  exists r, h, it. split_and!; [done..| |done|].
  { by apply heap_ordered_root_min. }
  assert (NoDup (r :: items h)) as Hnd' by (by rewrite <- Hperm).
  apply NoDup_cons in Hnd' as [Hrh Hndh].
  split_and!.
  - pose proof (pop_removeItem_inv l r h Hinv Hp) as Hi. by rewrite Hrm in Hi.
  - cbn [delete_expiresAt with_db with_expHeap expHeap items].
    apply heap_ordered_delete_absent; [done|].
    by eapply heap_Pop_ordered.
  - done.
  - cbn [delete_expiresAt with_db with_expHeap expHeap items db].
    intros k Hk. rewrite lookup_delete_ne by (by intros ->).
    apply Hin. rewrite Hperm. by right.
Qed.

(** X1: on a heap that satisfies the heap condition, [heap.Pop] returns
    a key whose expiration is the least of all keys in the heap, takes
    one occurrence of that key out of [items] and nothing else, leaves
    the [expiresAt] map alone and keeps the heap condition. *)
Theorem heap_Pop_takes_minimum h :
  heap_ordered h -> items h <> [] ->
  exists x h',
    heap.Pop h = Some (x, h') /\
    (forall k, k ∈ items h ->
       (expirationHeap.at_ h x <= expirationHeap.at_ h k)%Z) /\
    items h ≡ₚ x :: items h' /\
    expiresAt h' = expiresAt h /\
    heap_ordered h'.
Proof.
  intros Hord Hne.
  destruct (heap_Pop_Some _ Hne) as (x & h' & Hp & Hroot & Hperm & Hex).
  exists x, h'. split_and!; [done| |done|done|by eapply heap_Pop_ordered].
  by apply heap_ordered_root_min.
Qed.

(** X2: [heap.Push] adds exactly the pushed key to [items], leaves the
    [expiresAt] map alone and keeps the heap condition. *)
Theorem heap_Push_keeps_heap h x :
  heap_ordered h ->
  heap_ordered (heap.Push h x) /\
  items (heap.Push h x) ≡ₚ x :: items h /\
  expiresAt (heap.Push h x) = expiresAt h /\
  expirationHeap.Len (heap.Push h x) = S (expirationHeap.Len h).
Proof.
  intros Hord. split_and!.
  - by apply heap_Push_ordered.
  - apply heap_Push_perm.
  - apply heap_Push_expiresAt.
  - apply heap_Push_length.
Qed.

Lemma pop_all_ordered fuel h :
  heap_ordered h -> length (items h) <= fuel ->
  pop_all fuel h ≡ₚ items h /\
  non_decreasing (expirationHeap.at_ h <$> pop_all fuel h).
Proof.
  revert h; induction fuel as [|fuel IH]; intros h Hord Hlen.
  { destruct (items h) eqn:He; [done|simpl in Hlen; lia]. }
  cbn [pop_all]. destruct (decide (items h = [])) as [He|Hne].
  { assert (heap.Pop h = None) as -> by (by apply heap_Pop_None).
    by rewrite He. }
  destruct (heap_Pop_Some _ Hne) as (x & h' & Hp & Hroot & Hperm & Hex).
  rewrite Hp. pose proof (heap_Pop_ordered _ _ _ Hord Hp) as Hord'.
  destruct (IH h' Hord') as [Hperm' Hsorted'].
  { rewrite Hperm in Hlen. simpl in Hlen. lia. }
  split; [by rewrite Hperm, Hperm'|].
  rewrite fmap_cons. cbn [non_decreasing]. split.
  - apply Forall_fmap, Forall_forall. intros k Hk. simpl.
    apply heap_ordered_root_min; [done..|].
    rewrite Hperm. right. by rewrite <- Hperm'.
  - erewrite list_fmap_ext; [exact Hsorted'|].
    intros i k _. by apply at_same_expiresAt.
Qed.

(** X3: popping a heap that satisfies the heap condition until it is
    empty yields every key of [items], each as often as it occurs, in
    non-decreasing order of expiration. *)
Theorem pop_all_sorted h :
  heap_ordered h ->
  pop_all (length (items h)) h ≡ₚ items h /\
  non_decreasing (expirationHeap.at_ h <$> pop_all (length (items h)) h).
Proof. intros Hord. by apply pop_all_ordered. Qed.

Lemma sweep_loop_exact fuel l now :
  fresh_state l -> length (items (expHeap l)) <= fuel ->
  fresh_state (sweep_loop fuel l now).1 /\
  (forall k it, db (sweep_loop fuel l now).1 !! k = Some it <->
     db l !! k = Some it /\ (now <= ExpiresAt it)%Z) /\
  (forall k v, (k, v) ∈ (sweep_loop fuel l now).2 <->
     v = VNil /\ EvictCallback (opts l) = true /\
     exists it, db l !! k = Some it /\ (ExpiresAt it < now)%Z).
Proof.
  revert l; induction fuel as [|fuel IH]; intros l Hf Hlen.
  { assert (items (expHeap l) = []) as He.
    { destruct (items (expHeap l)); [done|simpl in Hlen; lia]. }
    pose proof Hf as ((_ & H1 & _) & _).
    simpl. split_and!; [done| |].
    - intros k it. split; [|by intros [? ?]]. intros Hk.
      destruct (H1 _ _ Hk) as (_ & _ & _ & Hin). rewrite He in Hin.
      by apply elem_of_nil in Hin.
    - intros k v. split; [by intros ?%elem_of_nil|].
      intros (_ & _ & it & Hk & _).
      destruct (H1 _ _ Hk) as (_ & _ & _ & Hin). rewrite He in Hin.
      by apply elem_of_nil in Hin. }
  cbn [sweep_loop].
  destruct (items (expHeap l)) as [|k0 its] eqn:Hits;
    pose proof Hf as (Hinv & Hord & Hnd & Hin);
    pose proof Hinv as (_ & H1 & _).
  { simpl. split_and!; [done| |].
    - intros k it. split; [|by intros [? ?]]. intros Hk.
      destruct (H1 _ _ Hk) as (_ & _ & _ & Hk'). rewrite Hits in Hk'.
      by apply elem_of_nil in Hk'.
    - intros k v. split; [by intros ?%elem_of_nil|].
      intros (_ & _ & it & Hk & _).
      destruct (H1 _ _ Hk) as (_ & _ & _ & Hk'). rewrite Hits in Hk'.
      by apply elem_of_nil in Hk'. }
  destruct (pop_removeItem_fresh l Hf) as
    (r & h & itr & Hp & Hroot & Hperm & Hr & Hmin & Hrm & Hf1);
    [by rewrite Hits|].
  rewrite Hits in Hroot. simpl in Hroot. injection Hroot as ->.
  destruct (Z.ltb_spec (expirationHeap.at_ (expHeap l) r) now) as [Hexp|Hlive].
  - rewrite Hp, Hrm.
    set (l1 := delete_expiresAt (with_db (with_expHeap l h) (delete r (db l))) r) in *.
    destruct (IH l1 Hf1) as (Hf2 & Hdb2 & Hc2).
    { rewrite <- Hits, Hperm in Hlen. subst l1; simpl in *. lia. }
    destruct (sweep_loop fuel l1 now) as [l2 c2]; simpl in Hf2, Hdb2, Hc2 |- *.
    rewrite (fresh_state_at l r itr Hinv Hr) in Hexp.
    split_and!; [done| |].
    + intros k it. rewrite Hdb2. subst l1; simpl.
      rewrite lookup_delete_Some. split; [by intros [[? ?] ?]|].
      intros [Hk Hl]. split_and!; [|done..].
      intros ->. simplify_eq. lia.
    + intros k v. rewrite elem_of_app, Hc2. subst l1; simpl.
      unfold evict_calls. split.
      * intros [Hc1|(-> & Hcb & it & Hk & He)].
        -- destruct (EvictCallback (opts l)) eqn:Hcb;
             [|by apply elem_of_nil in Hc1].
           apply list_elem_of_singleton in Hc1. simplify_eq. eauto.
        -- apply lookup_delete_Some in Hk as [_ Hk]. eauto.
      * intros (-> & Hcb & it & Hk & He). rewrite Hcb.
        destruct (decide (k = r)) as [->|Hne]; [left; by left|].
        right. split_and!; [done..|]. exists it. split; [|done].
        by apply lookup_delete_Some.
  - simpl. split_and!; [done| |].
    + intros k it. split; [|by intros [? ?]]. intros Hk. split; [done|].
      destruct (H1 _ _ Hk) as (_ & _ & _ & Hk').
      rewrite <- (fresh_state_at l k it Hinv Hk).
      pose proof (Hmin k Hk'). lia.
    + intros k v. split; [by intros ?%elem_of_nil|].
      intros (_ & _ & it & Hk & He).
      destruct (H1 _ _ Hk) as (_ & _ & _ & Hk').
      rewrite <- (fresh_state_at l k it Hinv Hk) in He.
      pose proof (Hmin k Hk'). lia.
Qed.

(** X4: in a duplicate-free state the sweep [removeExpiredItems] at time
    [now] removes exactly the stored items whose expiration is before
    [now], calls the callback (if there is one) for exactly their keys,
    always with the value nil, and leaves a duplicate-free state. *)
Theorem removeExpiredItems_removes_expired l now :
  fresh_state l ->
  fresh_state (removeExpiredItems l now).1 /\
  (forall k it, db (removeExpiredItems l now).1 !! k = Some it <->
     db l !! k = Some it /\ (now <= ExpiresAt it)%Z) /\
  (forall k v, (k, v) ∈ (removeExpiredItems l now).2 <->
     v = VNil /\ EvictCallback (opts l) = true /\
     exists it, db l !! k = Some it /\ (ExpiresAt it < now)%Z).
Proof. intros Hf. by apply sweep_loop_exact. Qed.

(** *** [Set] of a new key in a duplicate-free state *)

(** X5: in a duplicate-free state that holds no more than [size] items,
    [Set] of a valid key that is not stored returns nil and leaves a
    duplicate-free state.  With room left it stores the item and evicts
    nothing; in a full cache it evicts exactly one key, one whose
    expiration is the least among the stored items and the new one, and
    calls the callback for it. *)
Theorem LRU_Set_new_key_evicts_earliest l key v ttl now data :
  fresh_state l -> db l !! key = None -> key <> ""%string ->
  (0 < ttl)%Z -> serialize v = Some data ->
  (Z.of_nat (LRU_Len l) <= size l)%Z ->
  exists l' calls,
    LRU_Set l key v ttl now = (l', calls, None) /\
    fresh_state l' /\
    let t := <[key := {| Key := key; Value := data; ExpiresAt := now + ttl |}]> (db l) in
    ((Z.of_nat (LRU_Len l) < size l)%Z /\ calls = [] /\ db l' = t) \/
    (Z.of_nat (LRU_Len l) = size l /\
     exists e ite, t !! e = Some ite /\
       (forall k it, t !! k = Some it -> (ExpiresAt ite <= ExpiresAt it)%Z) /\
       calls = evict_calls l e /\ db l' = delete e t).
Proof.
  intros Hf Hk Hne Httl Hser Hcap.
  pose proof Hf as (Hinv & _ & _ & Hin).
  assert (key ∉ items (expHeap l)) as Hnew.
  { intros Hi. destruct (Hin _ Hi) as [it Hit]. congruence. }
  rewrite LRU_Len_size, (fresh_state_size l Hf) in Hcap |- *.
  destruct (LRU_Set_fresh l key v ttl now data Hf Hnew Hne Httl Hser)
    as (l2 & Hset & Hf2 & Hsz2 & Ho2 & Hit2 & Hdb2).
  assert (length (items (expHeap l2)) = S (length (items (expHeap l)))) as Hlen2.
  { by rewrite Hit2. }
  destruct (decide (Z.of_nat (length (items (expHeap l))) < size l)%Z) as [Hlt|Hfull].
  - rewrite evict_within_capacity in Hset.
    2:{ unfold expirationHeap.Len. rewrite Hlen2, Hsz2. lia. }
    exists l2, []. split_and!; [done..|]. left. split_and!; [done..|].
    by rewrite Hdb2.
  - destruct (pop_removeItem_fresh l2 Hf2)
      as (r & h & itr & Hp & _ & _ & Hr & Hmin & Hrm & Hf3).
    { intros He. rewrite He in Hlen2. done. }
    destruct (evict_one_over l2 Hf2) as (e & h0 & Hp0 & _ & Hev).
    { unfold expirationHeap.Len. rewrite Hlen2, Hsz2. lia. }
    rewrite Hp in Hp0. injection Hp0 as <- <-.
    rewrite Hev in Hset. eexists _, _. split_and!; [exact Hset|exact Hf3|].
    right. split; [lia|]. exists r, itr.
    pose proof Hf2 as (Hinv2 & _). rewrite <- Hdb2.
    split_and!; [done| | |done].
    + intros k it Hkt. pose proof Hinv2 as (_ & H1 & _).
      destruct (H1 _ _ Hkt) as (_ & _ & _ & Hki).
      rewrite <- (fresh_state_at l2 r itr Hinv2 Hr).
      rewrite <- (fresh_state_at l2 k it Hinv2 Hkt). by apply Hmin.
    + unfold evict_calls. by rewrite Ho2.
Qed.

(** *** The capacity bound *)

Lemma evict_loop_stop fuel l :
  (Z.of_nat (expirationHeap.Len (expHeap l)) <= size l)%Z ->
  evict_loop fuel l = (l, []).
Proof.
  intros Hle. destruct fuel; [done|]. cbn [evict_loop].
  by destruct (Z.gtb_spec (Z.of_nat (expirationHeap.Len (expHeap l))) (size l));
    [lia|].
Qed.

Lemma removeItem_frame l key :
  items (expHeap (removeItem l key).1) = items (expHeap l) /\
  size (removeItem l key).1 = size l /\
  opts (removeItem l key).1 = opts l.
Proof. by destruct (removeItem_cases l key) as [(_ & _ & ->)|[_ ->]]. Qed.

Lemma evict_loop_bound fuel l :
  (0 <= size l)%Z -> expirationHeap.Len (expHeap l) <= fuel ->
  (Z.of_nat (expirationHeap.Len (expHeap (evict_loop fuel l).1)) <= size l)%Z /\
  size (evict_loop fuel l).1 = size l /\
  opts (evict_loop fuel l).1 = opts l.
Proof.
  unfold expirationHeap.Len.
  revert l; induction fuel as [|fuel IH]; intros l Hs Hlen.
  { simpl. split; [lia|done]. }
  cbn [evict_loop]. unfold expirationHeap.Len.
  destruct (Z.gtb_spec (Z.of_nat (length (items (expHeap l)))) (size l)) as [Hgt|Hle];
    [|done].
  destruct (heap.Pop (expHeap l)) as [[k h]|] eqn:Hp.
  2:{ apply heap_Pop_None in Hp. rewrite Hp in Hgt. simpl in Hgt. lia. }
  apply heap_Pop_inv in Hp as (_ & Hperm & _).
  destruct (removeItem_frame (with_expHeap l h) k) as (Hit & Hsz & Ho).
  destruct (removeItem (with_expHeap l h) k) as [l1 c1]; simpl in Hit, Hsz, Ho.
  destruct (IH l1) as (Hb & Hsz' & Ho').
  - rewrite Hsz. done.
  - rewrite Hit. rewrite Hperm in Hlen. simpl in Hlen. lia.
  - destruct (evict_loop fuel l1) as [l2 c2]; simpl in *.
    split_and!; congruence.
Qed.

Lemma sweep_loop_bound fuel l now :
  length (items (expHeap (sweep_loop fuel l now).1)) <= length (items (expHeap l)) /\
  size (sweep_loop fuel l now).1 = size l /\
  opts (sweep_loop fuel l now).1 = opts l.
Proof.
  revert l; induction fuel as [|fuel IH]; intros l; [done|].
  cbn [sweep_loop].
  destruct (items (expHeap l)) as [|k0 its] eqn:Hits;
    [simpl; by rewrite ?Hits|].
  destruct (_ <? _)%Z; [|simpl; by rewrite ?Hits].
  destruct (heap.Pop (expHeap l)) as [[k h]|] eqn:Hp; [|simpl; by rewrite ?Hits].
  apply heap_Pop_inv in Hp as (_ & Hperm & _).
  destruct (removeItem_frame (with_expHeap l h) k) as (Hit & Hsz & Ho).
  destruct (removeItem (with_expHeap l h) k) as [l1 c1]; simpl in Hit, Hsz, Ho.
  destruct (IH l1) as (Hb & Hsz' & Ho').
  destruct (sweep_loop fuel l1 now) as [l2 c2]; simpl in *.
  rewrite Hit in Hb. rewrite Hits in Hperm.
  apply Permutation_length in Hperm. simpl in Hperm.
  split_and!; [lia|congruence..].
Qed.

Lemma LRU_Set_frame l key v ttl now :
  size (LRU_Set l key v ttl now).1.1 = size l /\
  opts (LRU_Set l key v ttl now).1.1 = opts l /\
  ((0 <= size l)%Z ->
   (Z.of_nat (expirationHeap.Len (expHeap l)) <= size l)%Z ->
   (Z.of_nat (expirationHeap.Len (expHeap (LRU_Set l key v ttl now).1.1)) <= size l)%Z).
Proof.
  unfold LRU_Set. destruct (ttl <=? 0)%Z; [done|].
  destruct (serialize v) as [data|]; [|done].
  destruct (memdb.Insert _ _) as [t|e]; [|done].
  match goal with |- context [evict ?x] => set (l2 := x) end.
  unfold evict.
  destruct (decide (0 <= size l)%Z) as [Hs|Hs].
  - destruct (evict_loop_bound (expirationHeap.Len (expHeap l2)) l2)
      as (Hb & Hsz & Ho); [done|done|].
    destruct (evict_loop _ l2) as [l3 c3]; simpl in *. done.
  - assert (size (evict_loop (expirationHeap.Len (expHeap l2)) l2).1 = size l /\
            opts (evict_loop (expirationHeap.Len (expHeap l2)) l2).1 = opts l)
      as [Hsz Ho].
    { generalize (expirationHeap.Len (expHeap l2)).
      assert (size l2 = size l /\ opts l2 = opts l) as Hl2 by done.
      clearbody l2. intros n. revert l2 Hl2.
      induction n as [|n IH]; intros l2 [Hs2 Ho2]; [done|].
      cbn [evict_loop]. destruct (_ >? _)%Z; [|done].
      destruct (heap.Pop (expHeap l2)) as [[k h]|]; [|done].
      destruct (removeItem_frame (with_expHeap l2 h) k) as (_ & Hsz & Ho).
      destruct (removeItem (with_expHeap l2 h) k) as [l1 c1]; simpl in Hsz, Ho.
      specialize (IH l1). destruct (evict_loop n l1) as [l3 c3]; simpl in *.
      destruct IH as [-> ->]; [split; congruence|]. split; congruence. }
    destruct (evict_loop _ l2) as [l3 c3]; simpl in *. split_and!; [done..|lia].
Qed.

Lemma run_frame l o now :
  size (run l o now).1 = size l /\ opts (run l o now).1 = opts l /\
  (within_capacity l -> within_capacity (run l o now).1).
Proof.
  unfold within_capacity. destruct o as [key v ttl|key|key| |]; simpl.
  - destruct (LRU_Set_frame l key v ttl now) as (Hs & Ho & Hb).
    split_and!; [done..|]. intros [? ?]. rewrite Hs. split; [done|]. apply Hb; lia.
  - unfold LRU_Get, memdb.First. destruct (db l !! key) as [it|]; [|done].
    destruct (_ >? _)%Z; [|by destruct (deserialize _)].
    destruct (removeItem_frame l key) as (Hit & Hs & Ho).
    destruct (removeItem l key) as [l1 c1]; simpl in *.
    unfold expirationHeap.Len. by rewrite Hit, Hs.
  - unfold LRU_Delete. destruct (memdb.Delete _ _); done.
  - unfold LRU_Clear. destruct (delete_rows _ _); [|done]. simpl.
    split_and!; [done..|]. intros [? ?]. split; [done|].
    unfold expirationHeap.Len; simpl. lia.
  - unfold removeExpiredItems.
    destruct (sweep_loop_bound (expirationHeap.Len (expHeap l)) l now)
      as (Hb & Hs & Ho).
    split_and!; [done..|]. unfold expirationHeap.Len in *.
    rewrite Hs. intros [? ?]. split; [done|lia].
Qed.

Lemma reachable_within_capacity l : reachable l -> within_capacity l.
Proof.
  induction 1 as [c o l Hnew|l o now _ IH].
  - unfold NewLRUWithTTL in Hnew. destruct (Z.leb_spec c 0); [done|].
    injection Hnew as <-. split; simpl; [done|].
    unfold expirationHeap.Len; simpl. lia.
  - by apply run_frame.
Qed.

Lemma stored_keys_le_items l :
  cache_inv l -> LRU_Len l <= length (items (expHeap l)).
Proof.
  intros (_ & H1 & _). rewrite LRU_Len_size, <- length_map_to_list.
  rewrite <- (length_fmap fst).
  apply submseteq_length, NoDup_submseteq; [apply NoDup_fst_map_to_list|].
  intros k [[k' it] [-> Hin]]%list_elem_of_fmap. simpl.
  apply elem_of_map_to_list in Hin. by destruct (H1 _ _ Hin) as (_ & _ & _ & ?).
Qed.

(** X6: no operation changes the capacity or the options of the cache. *)
Theorem run_keeps_size_and_opts l o now :
  size (run l o now).1 = size l /\ opts (run l o now).1 = opts l.
Proof. destruct (run_frame l o now) as (? & ? & _). done. Qed.

(** X7: in every reachable state the capacity is positive, the heap
    holds at most [size] keys and [Len] is at most [size]. *)
Theorem reachable_Len_le_size l :
  reachable l ->
  (0 < size l)%Z /\
  (Z.of_nat (expirationHeap.Len (expHeap l)) <= size l)%Z /\
  (Z.of_nat (LRU_Len l) <= size l)%Z.
Proof.
  intros Hr. destruct (reachable_within_capacity l Hr) as [Hs Hb].
  pose proof (stored_keys_le_items l (reachable_inv l Hr)).
  unfold expirationHeap.Len in *. split_and!; [done..|lia].
Qed.

(** *** [Clear], [Delete], [NewLRUWithTTL] and what [Get] returns *)

Lemma delete_rows_ok rows t :
  NoDup (Key <$> rows) ->
  (forall it, it ∈ rows -> Key it <> ""%string /\ is_Some (t !! Key it)) ->
  exists t', delete_rows t rows = inl t'.
Proof.
  revert t; induction rows as [|it rows IH]; intros t Hnd Hin; simpl; [eauto|].
  rewrite fmap_cons in Hnd. apply NoDup_cons in Hnd as [Hni Hnd].
  destruct (Hin it) as [Hne [x Hx]]; [left|].
  unfold memdb.Delete. destruct (String.eqb_spec (Key it) ""); [done|].
  rewrite Hx. apply IH; [done|].
  intros it' Hit'. destruct (Hin it') as [Hne' Hs']; [by right|].
  split; [done|]. rewrite lookup_delete_ne; [done|].
  intros Heq. apply Hni. rewrite Heq. by apply list_elem_of_fmap_2.
Qed.

Lemma memdb_Get_keys l :
  cache_inv l -> Key <$> memdb.Get (db l) = (map_to_list (db l)).*1.
Proof.
  intros (_ & H1 & _). unfold memdb.Get. rewrite <- list_fmap_compose.
  apply list_fmap_ext. intros i [k it] Hi. simpl.
  apply list_elem_of_lookup_2, elem_of_map_to_list in Hi.
  by destruct (H1 _ _ Hi) as (_ & ? & _).
Qed.

(** X9: in every reachable state [Clear] returns nil, makes no callback
    call, and leaves an empty store and an empty expiry index: [Len] is
    0 and [Get] on any key fails with [ErrItemNotFound]. *)
Theorem LRU_Clear_empties l :
  reachable l ->
  exists l',
    LRU_Clear l = (l', [], None) /\
    db l' = ∅ /\ items (expHeap l') = [] /\ expiresAt (expHeap l') = ∅ /\
    size l' = size l /\ opts l' = opts l /\
    LRU_Len l' = 0 /\
    (forall key now, LRU_Get l' key now = (l', [], inr ErrItemNotFound)).
Proof.
  intros Hr. pose proof (reachable_inv l Hr) as Hinv.
  destruct (delete_rows_ok (memdb.Get (db l)) (db l)) as [t Ht].
  - rewrite (memdb_Get_keys l Hinv). apply NoDup_fst_map_to_list.
  - intros it Hit. unfold memdb.Get in Hit.
    apply list_elem_of_fmap in Hit as [[k it'] [-> Hin]]. simpl.
    apply elem_of_map_to_list in Hin.
    destruct Hinv as (_ & H1 & _). destruct (H1 _ _ Hin) as (Hne & -> & _).
    split; [done|]. eauto.
  - pose proof (delete_rows_all l t Hinv Ht) as ->.
    unfold LRU_Clear. rewrite Ht. eexists. split_and!; try done.
Qed.

(** X10: in every reachable state, after [Delete(key)], whatever it
    returned, [Get(key)] fails with [ErrItemNotFound] and changes
    nothing, and a second [Delete(key)] returns an error. *)
Theorem LRU_Delete_then_Get_not_found l key now :
  reachable l ->
  let l' := (LRU_Delete l key).1.1 in
  LRU_Get l' key now = (l', [], inr ErrItemNotFound) /\
  exists e, LRU_Delete l' key = (l', [], Some (ErrDelete e)).
Proof.
  intros Hr l'. pose proof (reachable_inv l Hr) as (_ & H1 & _).
  assert (db l' !! key = None) as Hk.
  { subst l'. unfold LRU_Delete.
    destruct (memdb.Delete _ _) as [t|e] eqn:Hd; simpl.
    - apply memdb_Delete_inl in Hd as (_ & _ & ->). apply lookup_delete_eq.
    - apply memdb_Delete_inr in Hd as [Hd|Hd]; simpl in Hd; [|done].
      destruct (db l !! key) as [it|] eqn:Hit; [|done].
      by destruct (H1 _ _ Hit) as (? & _). }
  split.
  - unfold LRU_Get, memdb.First. by rewrite Hk.
  - unfold LRU_Delete.
    destruct (memdb_Delete_absent (db l') key "" 0 Hk) as [e ->]. eauto.
Qed.

(** X11: [NewLRUWithTTL] returns the error "cache size must be
    positive" when the size is not positive; a cache it returns has a
    positive size, that size and those options, and holds nothing:
    [Len] is 0, [Get] on any key fails with [ErrItemNotFound], and the
    sweep finds nothing to remove. *)
Theorem NewLRUWithTTL_empty c o :
  ((c <= 0)%Z -> NewLRUWithTTL c o = inr ErrSizeNotPositive) /\
  (forall l, NewLRUWithTTL c o = inl l ->
     (0 < c)%Z /\ size l = c /\ opts l = o /\ LRU_Len l = 0 /\
     (forall key now, LRU_Get l key now = (l, [], inr ErrItemNotFound)) /\
     (forall now, removeExpiredItems l now = (l, []))).
Proof.
  unfold NewLRUWithTTL. split.
  - intros Hc. by destruct (Z.leb_spec c 0); [|lia].
  - intros l. destruct (Z.leb_spec c 0); [done|].
    intros [= <-]. split_and!; done.
Qed.

(** X12: in every reachable state the store and the [expiresAt] map hold
    the same keys, each stored item sits under its own non-empty [Key],
    the map gives the item's [ExpiresAt], and the key occurs in the
    heap's [items]. *)
Theorem reachable_store_matches_expiresAt l :
  reachable l ->
  (forall k, is_Some (db l !! k) <-> is_Some (expiresAt (expHeap l) !! k)) /\
  (forall k it, db l !! k = Some it ->
     k <> ""%string /\ Key it = k /\
     expiresAt (expHeap l) !! k = Some (ExpiresAt it) /\
     k ∈ items (expHeap l)).
Proof.
  intros Hr. destruct (reachable_inv l Hr) as (_ & H1 & H2).
  split; [|done]. intros k. split.
  - intros [it Hk]. destruct (H1 _ _ Hk) as (_ & _ & -> & _). eauto.
  - intros [t Hk]. destruct (db l !! k) eqn:Hd; [eauto|].
    rewrite (H2 _ Hd) in Hk. done.
Qed.

(** X13: [Get] never fails with a decoding error.  It returns a value
    exactly when the key is stored and the time is not after the item's
    expiration, fails with [ErrItemNotFound] exactly when the key is not
    stored, and with [ErrItemExpired] exactly when it is stored and the
    time is after the expiration. *)
Theorem LRU_Get_outcomes l key now :
  (LRU_Get l key now).2 <> inr ErrDeserialize /\
  ((exists v, (LRU_Get l key now).2 = inl v) <->
     exists it, db l !! key = Some it /\ (now <= ExpiresAt it)%Z) /\
  ((LRU_Get l key now).2 = inr ErrItemNotFound <-> db l !! key = None) /\
  ((LRU_Get l key now).2 = inr ErrItemExpired <->
     exists it, db l !! key = Some it /\ (ExpiresAt it < now)%Z).
Proof.
  unfold LRU_Get, memdb.First. destruct (db l !! key) as [it|] eqn:Hk.
  - destruct (Z.gtb_spec now (ExpiresAt it)) as [Hgt|Hle].
    + destruct (removeItem l key) as [l1 c1]. simpl.
      split_and!; [done| | |].
      * split; [by intros [? ?]|]. intros (it' & [= <-] & ?). lia.
      * done.
      * split; [|done]. intros _. exists it. split; [done|lia].
    + destruct (deserialize_never_fails (Value it)) as [v ->]. simpl.
      split_and!; [done| | |].
      * split; [|eauto]. intros _. exists it. split; [done|lia].
      * done.
      * split; [done|]. intros (it' & [= <-] & ?). lia.
  - simpl. split_and!; [done| | |].
    + split; [by intros [? ?]|]. by intros (? & ? & _).
    + done.
    + split; [done|]. by intros (? & ? & _).
Qed.

(** *** Round trips of the codec, runs within the capacity, the log filter *)

(** X14: an integer in the range of [int], handed to [serialize] as an
    [int], an [int32] or an [int64], always encodes, and [deserialize]
    on the encoding gives back the same number as an [int]. *)
Theorem serde_int_round_trip i v :
  (strconv.minInt <= i <= strconv.maxInt)%Z ->
  v ∈ [VInt i; VInt32 i; VInt64 i] ->
  exists data, serialize v = Some data /\ deserialize data = inl (VInt i).
Proof.
  intros Hi Hv. exists (fmt.Sprintf_d i). split.
  - repeat (apply elem_of_cons in Hv as [->|Hv]; [done|]).
    by apply elem_of_nil in Hv.
  - by apply deserialize_int.
Qed.

(** X15: a [bool] always encodes, and when [ParseFloat] accepts neither
    "true" nor "false", [deserialize] on the encoding gives back the
    same [bool]. *)
Theorem serde_bool_round_trip b :
  ParseFloat "true" = None -> ParseFloat "false" = None ->
  exists data, serialize (VBool b) = Some data /\
    deserialize data = inl (VBool b).
Proof.
  intros Ht Hf. exists (fmt.Sprintf_t b). split; [done|].
  apply deserialize_bool. by destruct b.
Qed.

(** X16: from a new cache of capacity [c], valid calls of [Set] on
    distinct keys, no more than [c] of them, all return nil and call no
    callback; after them [Len] is their number and [Get] on each key,
    at a time not after its expiration, returns the decoded value and
    changes nothing. *)
Theorem sets_within_capacity_all_retrievable c o l0 sets :
  NewLRUWithTTL c o = inl l0 ->
  (Z.of_nat (length sets) <= c)%Z ->
  NoDup (set_key <$> sets) ->
  Forall valid_set sets ->
  exists l,
    set_all l0 sets = (l, [], replicate (length sets) None) /\
    LRU_Len l = length sets /\
    (forall s now, s ∈ sets -> ~ (set_expires s < now)%Z ->
       exists data, serialize (set_value s) = Some data /\
         LRU_Get l (set_key s) now = (l, [], deserialize data)).
Proof.
  intros Hnew Hlen Hnd Hval.
  destruct (NewLRUWithTTL_fresh _ _ _ Hnew) as (Hf0 & Hit0 & Hsz0 & Ho0).
  destruct (set_all_within_capacity sets l0)
    as (l & Hall & Hf & _ & _ & Hit & Hdb & _); [done|done| |done| |].
  { intros s _. rewrite Hit0. apply not_elem_of_nil. }
  { rewrite Hit0, Hsz0; simpl. lia. }
  exists l. split_and!; [done| |].
  - rewrite LRU_Len_size, (fresh_state_size l Hf), Hit, Hit0, app_nil_r.
    by rewrite length_rev, length_fmap.
  - intros s now Hs Hlive. destruct (Hdb s Hs) as (data & Hd & Hk).
    exists data. split; [done|].
    unfold LRU_Get, memdb.First. rewrite Hk; simpl.
    destruct (Z.gtb_spec now (set_expires s)); [lia|].
    by destruct (deserialize_never_fails data) as [w ->].
Qed.

(** X17: [log] prints more the lower the configured level: a message
    printed under "error" is printed under "warn", one printed under
    "warn" is printed under "info", and under "debug" every message is
    printed.  Under "error" only messages of level "error" are printed,
    and under any other configured level nothing is. *)
Theorem LRU_log_levels l level format :
  let printed cfg := is_Some (LRU_log (with_LogLevel l cfg) level format) in
  (printed "error"%string -> printed "warn"%string) /\
  (printed "warn"%string -> printed "info"%string) /\
  printed "debug"%string /\
  (printed "error"%string <-> level = "error"%string) /\
  (forall cfg, cfg ∉ ["debug"; "info"; "warn"; "error"]%string -> ~ printed cfg).
Proof.
  intros printed. subst printed. cbv beta. unfold LRU_log; cbn [with_LogLevel opts LogLevel].
  split_and!.
  - change (String.eqb "error" "debug") with false.
    change (String.eqb "error" "info") with false.
    change (String.eqb "error" "warn") with false.
    change (String.eqb "error" "error") with true.
    change (String.eqb "warn" "debug") with false.
    change (String.eqb "warn" "info") with false.
    change (String.eqb "warn" "warn") with true. cbv iota.
    destruct (String.eqb_spec level "error") as [->|]; [|by intros [? ?]].
    intros _. simpl. eauto.
  - change (String.eqb "warn" "debug") with false.
    change (String.eqb "warn" "info") with false.
    change (String.eqb "warn" "warn") with true.
    change (String.eqb "info" "debug") with false.
    change (String.eqb "info" "info") with true. cbv iota.
    destruct (String.eqb_spec level "debug"); simpl; [by intros [? ?]|]. eauto.
  - simpl. eauto.
  - change (String.eqb "error" "debug") with false.
    change (String.eqb "error" "info") with false.
    change (String.eqb "error" "warn") with false.
    change (String.eqb "error" "error") with true. cbv iota.
    destruct (String.eqb_spec level "error"); split; try done; eauto.
  - intros cfg Hcfg.
    destruct (String.eqb_spec cfg "debug") as [->|]; [exfalso; apply Hcfg; by repeat constructor|].
    destruct (String.eqb_spec cfg "info") as [->|]; [exfalso; apply Hcfg; by repeat constructor|].
    destruct (String.eqb_spec cfg "warn") as [->|]; [exfalso; apply Hcfg; by repeat constructor|].
    destruct (String.eqb_spec cfg "error") as [->|]; [exfalso; apply Hcfg; by repeat constructor|].
    by intros [? ?].
Qed.

(** The states and heaps the theorems are run on. *)

Lemma heap_ab_ordered : heap_ordered heap_ab.
Proof.
  unfold heap_ab. do 2 apply heap_Push_ordered.
  intros j a b _ Hb. simpl in Hb. by rewrite lookup_nil in Hb.
Qed.

Lemma fresh_cache3 : fresh_state cache3.
Proof. by destruct (NewLRUWithTTL_fresh 3 (opts cache3) cache3 eq_refl). Qed.

Lemma fresh_cache3_k : fresh_state cache3_k.
Proof.
  destruct (LRU_Set_fresh cache3 "k" (VInt 7) 10 1 "7" fresh_cache3)
    as (l2 & Hset & Hf2 & Hsz & _ & Hit & _); [by apply not_elem_of_nil|done..|].
  rewrite evict_within_capacity in Hset.
  2:{ unfold expirationHeap.Len. rewrite Hit, Hsz. simpl. lia. }
  unfold cache3_k. by rewrite Hset.
Qed.

(** *** When [Set] fails, and caches without a callback *)

(** X18: [Set] returns nil exactly when the ttl is positive, the value
    encodes and the key is not empty; otherwise the error is the one of
    the first check that fails: the ttl, then the encoding, then the
    insertion into the store. *)
Theorem LRU_Set_succeeds_iff l key v ttl now :
  ((LRU_Set l key v ttl now).2 = None <->
     (0 < ttl)%Z /\ is_Some (serialize v) /\ key <> ""%string) /\
  ((LRU_Set l key v ttl now).2 = Some ErrTTLNotPositive <-> (ttl <= 0)%Z) /\
  ((LRU_Set l key v ttl now).2 = Some ErrSerialize <->
     (0 < ttl)%Z /\ serialize v = None) /\
  ((LRU_Set l key v ttl now).2 = Some (ErrInsert memdb.ErrMissingPrimaryIndex) <->
     (0 < ttl)%Z /\ is_Some (serialize v) /\ key = ""%string).
Proof.
  clear ParseFloat json_Unmarshal.
  unfold LRU_Set. destruct (Z.leb_spec ttl 0) as [Hle|Hlt]; simpl.
  { split_and!; (split; [intros ?|intros ?]); destruct_and?;
      first [done | lia]. }
  destruct (serialize v) as [data|]; simpl.
  2:{ split_and!; (split; [intros ?|intros ?]); destruct_and?;
        first [done | lia | by destruct (is_Some_None (A := string))]. }
  unfold memdb.Insert; cbn [Key].
  destruct (String.eqb_spec key "") as [->|Hne]; simpl.
  { split_and!; (split; [intros ?|intros ?]); destruct_and?;
      first [done | lia | by split_and!; eauto]. }
  destruct (evict _) as [l' calls]; simpl.
  split_and!; (split; [intros ?|intros ?]); destruct_and?;
    first [done | lia | by split_and!; eauto].
Qed.

Lemma evict_loop_no_callback fuel l :
  EvictCallback (opts l) = false -> (evict_loop fuel l).2 = [].
Proof.
  revert l; induction fuel as [|fuel IH]; intros l Hcb; [done|].
  cbn [evict_loop]. destruct (_ >? _)%Z; [|done].
  destruct (heap.Pop (expHeap l)) as [[k h]|]; [|done].
  destruct (removeItem_frame (with_expHeap l h) k) as (_ & _ & Ho).
  pose proof (removeItem_cases (with_expHeap l h) k) as Hc.
  destruct (removeItem (with_expHeap l h) k) as [l1 c1]; simpl in Ho.
  specialize (IH l1). destruct (evict_loop fuel l1) as [l2 c2]; simpl in *.
  rewrite IH by congruence.
  destruct Hc as [(_ & _ & [= _ ->])|[_ [= _ ->]]]; [|done].
  unfold evict_calls; simpl. by rewrite Hcb.
Qed.

Lemma sweep_loop_no_callback fuel l now :
  EvictCallback (opts l) = false -> (sweep_loop fuel l now).2 = [].
Proof.
  revert l; induction fuel as [|fuel IH]; intros l Hcb; [done|].
  cbn [sweep_loop]. destruct (items (expHeap l)); [done|].
  destruct (_ <? _)%Z; [|done].
  destruct (heap.Pop (expHeap l)) as [[k h]|]; [|done].
  destruct (removeItem_frame (with_expHeap l h) k) as (_ & _ & Ho).
  pose proof (removeItem_cases (with_expHeap l h) k) as Hc.
  destruct (removeItem (with_expHeap l h) k) as [l1 c1]; simpl in Ho.
  specialize (IH l1). destruct (sweep_loop fuel l1 now) as [l2 c2]; simpl in *.
  rewrite IH by congruence.
  destruct Hc as [(_ & _ & [= _ ->])|[_ [= _ ->]]]; [|done].
  unfold evict_calls; simpl. by rewrite Hcb.
Qed.

(** X19: on a cache built without a callback no operation makes a
    callback call, whatever it removes. *)
Theorem no_callback_no_calls l o now :
  EvictCallback (opts l) = false -> (run l o now).2 = [].
Proof.
  intros Hcb. destruct o as [key v ttl|key|key| |]; simpl.
  - unfold LRU_Set. destruct (ttl <=? 0)%Z; [done|].
    destruct (serialize v); [|done]. destruct (memdb.Insert _ _); [|done].
    match goal with |- context [evict ?x] => set (l2 := x) end.
    pose proof (evict_loop_no_callback (expirationHeap.Len (expHeap l2)) l2 Hcb).
    unfold evict. by destruct (evict_loop _ l2).
  - unfold LRU_Get, memdb.First. destruct (db l !! key); [|done].
    destruct (_ >? _)%Z; [|by destruct (deserialize _)].
    pose proof (removeItem_cases l key) as Hc.
    destruct (removeItem l key) as [l1 c1]; simpl.
    destruct Hc as [(_ & _ & [= _ ->])|[_ [= _ ->]]]; [|done].
    unfold evict_calls. by rewrite Hcb.
  - unfold LRU_Delete. by destruct (memdb.Delete _ _).
  - unfold LRU_Clear. by destruct (delete_rows _ _).
  - by apply sweep_loop_no_callback.
Qed.

(** *** [Set] in a reachable state: what is stored and what is evicted *)

(** A [Set] that passes its checks in a state within capacity stores
    the item; with room left in the heap nothing else happens; with a
    full heap the loop runs once and removes the key that [heap.Pop]
    returns, if it is stored, calling the callback for it. *)
Lemma LRU_Set_stores_then_pops l key v ttl now data :
  within_capacity l -> cache_inv l ->
  key <> ""%string -> (0 < ttl)%Z -> serialize v = Some data ->
  let t := <[key := {| Key := key; Value := data; ExpiresAt := now + ttl |}]> (db l) in
  let h1 := {| items := items (expHeap l);
               expiresAt := <[key := (now + ttl)%Z]> (expiresAt (expHeap l)) |} in
  exists l1 calls,
    LRU_Set l key v ttl now = (l1, calls, None) /\
    (((Z.of_nat (expirationHeap.Len (expHeap l)) < size l)%Z /\
      db l1 = t /\ calls = []) \/
     (Z.of_nat (expirationHeap.Len (expHeap l)) = size l /\
      exists e h,
        heap.Pop (heap.Push h1 key) = Some (e, h) /\
        db l1 = delete e t /\
        calls = if decide (is_Some (t !! e)) then evict_calls l e else [])).
Proof.
  intros [Hs Hb] (_ & H1 & _) Hne Httl Hser t h1.
  unfold LRU_Set. destruct (Z.leb_spec ttl 0); [lia|]. rewrite Hser.
  unfold memdb.Insert; cbn [Key].
  destruct (String.eqb_spec key ""); [done|].
  fold t. fold h1.
  set (l2 := with_expHeap (with_db l t) (heap.Push h1 key)).
  assert (expirationHeap.Len (expHeap l2) = S (expirationHeap.Len (expHeap l)))
    as Hlen2 by (subst l2; simpl; by rewrite heap_Push_length).
  destruct (decide (Z.of_nat (expirationHeap.Len (expHeap l)) < size l)%Z)
    as [Hlt|Hfull].
  { rewrite evict_within_capacity.
    2:{ rewrite Hlen2. subst l2; simpl. lia. }
    exists l2, []. split; [done|]. left. done. }
  unfold evict. rewrite Hlen2. cbn [evict_loop].
  destruct (Z.gtb_spec (Z.of_nat (expirationHeap.Len (expHeap l2))) (size l2))
    as [_|Hle].
  2:{ rewrite Hlen2 in Hle. subst l2; simpl in Hle. lia. }
  destruct (heap.Pop (expHeap l2)) as [[e h]|] eqn:Hp.
  2:{ apply heap_Pop_None in Hp. unfold expirationHeap.Len in Hlen2.
      rewrite Hp in Hlen2. done. }
  pose proof Hp as Hp'. apply heap_Pop_inv in Hp' as (_ & Hperm & _).
  destruct (removeItem_frame (with_expHeap l2 h) e) as (Hit & Hsz & _).
  pose proof (removeItem_cases (with_expHeap l2 h) e) as Hcases.
  destruct (removeItem (with_expHeap l2 h) e) as [l1 c1]; simpl in Hit, Hsz.
  rewrite evict_loop_stop.
  2:{ unfold expirationHeap.Len in *. rewrite Hit, Hsz.
      rewrite Hperm in Hlen2. simpl in Hlen2.
      replace (size l2) with (size l) in * by done. lia. }
  exists l1, (c1 ++ []). split; [done|]. right. split; [lia|].
  exists e, h. split; [exact Hp|]. rewrite app_nil_r.
  destruct Hcases as [(_ & Hin & [= -> ->])|[Hno [= -> ->]]]; simpl.
  - split; [done|]. by rewrite decide_True.
  - assert (t !! e = None) as Hte.
    { destruct Hno as [->|Hno]; [|done].
      subst t. rewrite lookup_insert_ne by done.
      destruct (db l !! ""%string) as [it|] eqn:Hk; [|done].
      by destruct (H1 _ _ Hk) as (? & _). }
    split; [by rewrite delete_id|].
    rewrite decide_False; [done|]. rewrite Hte. by intros [? ?].
Qed.


(** X8: in every reachable state a [Set] that returns nil stores the
    item.  When the heap held fewer than [size] keys nothing else
    changes and no callback is called.  When it held [size] keys the
    eviction loop runs exactly once: the key [e] that [heap.Pop]
    returns is removed from the store, and the callback is called once,
    for [e] with the value nil, if [e] was stored; no other key is
    removed. *)
Theorem LRU_Set_evicts_at_most_one l key v ttl now l' calls :
  reachable l -> LRU_Set l key v ttl now = (l', calls, None) ->
  exists data,
    serialize v = Some data /\
    let t := <[key := {| Key := key; Value := data; ExpiresAt := now + ttl |}]> (db l) in
    let h1 := {| items := items (expHeap l);
                 expiresAt := <[key := (now + ttl)%Z]> (expiresAt (expHeap l)) |} in
    ((Z.of_nat (expirationHeap.Len (expHeap l)) < size l)%Z /\
     db l' = t /\ calls = []) \/
    (Z.of_nat (expirationHeap.Len (expHeap l)) = size l /\
     exists e h,
       heap.Pop (heap.Push h1 key) = Some (e, h) /\
       db l' = delete e t /\
       calls = if decide (is_Some (t !! e))
               then (if EvictCallback (opts l) then [(e, VNil)] else [])
               else []).
Proof.
  intros Hr Hset.
  assert (key <> ""%string /\ (0 < ttl)%Z /\ exists data, serialize v = Some data)
    as (Hne & Httl & data & Hser).
  { revert Hset. unfold LRU_Set. destruct (Z.leb_spec ttl 0); [done|].
    destruct (serialize v) as [data|]; [|done].
    unfold memdb.Insert; cbn [Key].
    destruct (String.eqb_spec key ""); [done|]. eauto. }
  destruct (LRU_Set_stores_then_pops l key v ttl now data
              (reachable_within_capacity l Hr) (reachable_inv l Hr) Hne Httl Hser)
    as (l1 & c1 & Hset1 & Hcases).
  rewrite Hset in Hset1. injection Hset1 as <- <-.
  exists data. split; [done|]. exact Hcases.
Qed.

(** C2, on the code: on the cache of capacity 2 that is empty again
    after [Set("a")] and [Delete("a")], a reachable state, [Set] on the
    three distinct keys "a", "b", "c" returns nil each time, calls the
    callback twice (for "b" and for "c") and leaves one key: [Len] is
    1, [Get] finds "a" only. *)
Theorem stale_entry_evicts_two_of_three :
  reachable cache2_emptied /\
  db cache2_emptied = ∅ /\
  items (expHeap cache2_emptied) = ["a"%string] /\
  (let r := set_all cache2_emptied three_sets in
   r.2 = [None; None; None] /\
   r.1.2 = [("b"%string, VNil); ("c"%string, VNil)] /\
   LRU_Len r.1.1 = 1 /\
   (LRU_Get r.1.1 "a" 5).2 = inl (VInt 1) /\
   (LRU_Get r.1.1 "b" 5).2 = inr ErrItemNotFound /\
   (LRU_Get r.1.1 "c" 5).2 = inr ErrItemNotFound).
Proof.
  split_and!; [|by vm_compute..].
  apply (reachable_run _ (OpDelete "a") 1).
  apply (reachable_run _ (OpSet "a" (VInt 0) 100) 1).
  by apply (reachable_new 2 (opts cache2)).
Qed.

End Codec.

(** ** The theorems at concrete calls *)

(** [Get] on "k" at time 20, after it expired at 11. *)
Lemma LRU_Get_expired_then_not_found_witness :
  exists Sprintf_f32 Sprintf_f64 ParseFloat json_Unmarshal l',
    LRU_Get ParseFloat json_Unmarshal (cache3_k Sprintf_f32 Sprintf_f64) "k" 20 =
      (l', [("k"%string, VNil)], inr ErrItemExpired) /\
    db l' = ∅ /\
    LRU_Get ParseFloat json_Unmarshal l' "k" 21 = (l', [], inr ErrItemNotFound).
Proof.
  exists (fun _ => ""%string), (fun _ => ""%string), (fun _ => None), (fun _ => None).
  destruct (LRU_Get_expired_then_not_found
              (fun _ => ""%string) (fun _ => ""%string) (fun _ => None) (fun _ => None)
              (cache3_k (fun _ => ""%string) (fun _ => ""%string)) "k" 20 21
              {| Key := "k"; Value := "7"; ExpiresAt := 11 |})
    as (l' & Hget & Hdb & _ & Hget').
  - apply reachable_cache3_k.
  - by vm_compute.
  - simpl. lia.
  - exists l'. split_and!; [exact Hget| |exact Hget'].
    rewrite Hdb. by vm_compute.
Defined.


(** [Get] on "k" at time 5, before it expires at 11. *)
Lemma LRU_Get_live_unchanged_witness :
  exists Sprintf_f32 Sprintf_f64 ParseFloat json_Unmarshal,
    let l := cache3_k Sprintf_f32 Sprintf_f64 in
    LRU_Get ParseFloat json_Unmarshal l "k" 5 = (l, [], inl (VInt 7)).
Proof.
  exists (fun _ => ""%string), (fun _ => ""%string), (fun _ => None), (fun _ => None).
  cbv zeta.
  destruct (LRU_Get_live_unchanged (fun _ => None) (fun _ => None)
              (cache3_k (fun _ => ""%string) (fun _ => ""%string)) "k" 5
              {| Key := "k"; Value := "7"; ExpiresAt := 11 |})
    as (v & Hv & Hget).
  - by vm_compute.
  - simpl. lia.
  - rewrite Hget. vm_compute in Hv. by simplify_eq.
Defined.

(** Capacity 3 and [Set] on key1 .. key4: key1 is evicted. *)
Lemma capacity_plus_one_evicts_earliest_witness :
  exists Sprintf_f32 Sprintf_f64 ParseFloat json_Unmarshal l e,
    set_all Sprintf_f32 Sprintf_f64 cache3 four_sets =
      (l, [(set_key e, VNil)], [None; None; None; None]) /\
    e ∈ four_sets /\
    (forall s, s ∈ four_sets -> (set_expires e <= set_expires s)%Z) /\
    LRU_Len l = 3 /\
    (forall now, LRU_Get ParseFloat json_Unmarshal l (set_key e) now =
                   (l, [], inr ErrItemNotFound)).
Proof.
  exists (fun _ => ""%string), (fun _ => ""%string), (fun _ => None), (fun _ => None).
  destruct (capacity_plus_one_evicts_earliest
              (fun _ => ""%string) (fun _ => ""%string) (fun _ => None) (fun _ => None)
              3%Z (opts cache3) cache3 four_sets)
    as (l & e & Hall & He & Hmin & Hlen & Hgone & _).
  - reflexivity.
  - reflexivity.
  - apply (bool_decide_unpack _). by vm_compute.
  - repeat constructor; try discriminate; by eexists.
  - exists l, e. split_and!; [exact Hall|exact He|exact Hmin|lia|exact Hgone].
Defined.


(** ** Where the specification and the code part *)



(** ** The further theorems at concrete heaps and states *)

Lemma heap_Pop_takes_minimum_witness :
  exists x h',
    heap.Pop heap_ab = Some (x, h') /\
    (forall k, k ∈ items heap_ab ->
       (expirationHeap.at_ heap_ab x <= expirationHeap.at_ heap_ab k)%Z) /\
    heap_ordered h'.
Proof.
  destruct (heap_Pop_takes_minimum heap_ab heap_ab_ordered)
    as (x & h' & Hp & Hmin & _ & _ & Hord); [by vm_compute|].
  exists x, h'. split_and!; [exact Hp|exact Hmin|exact Hord].
Defined.

Lemma heap_Push_keeps_heap_witness :
  heap_ordered (heap.Push heap_ab "c") /\
  items (heap.Push heap_ab "c") ≡ₚ "c"%string :: items heap_ab.
Proof.
  destruct (heap_Push_keeps_heap heap_ab "c" heap_ab_ordered) as (Ho & Hp & _).
  split; [exact Ho|exact Hp].
Defined.

Lemma pop_all_sorted_witness :
  pop_all (length (items heap_ab)) heap_ab ≡ₚ items heap_ab /\
  non_decreasing
    (expirationHeap.at_ heap_ab <$> pop_all (length (items heap_ab)) heap_ab).
Proof. exact (pop_all_sorted heap_ab heap_ab_ordered). Defined.

(** The sweep at time 20 on the cache that holds "k" until 11. *)
Lemma removeExpiredItems_removes_expired_witness :
  exists Sprintf_f32 Sprintf_f64 : PrimFloat.float -> string,
    fresh_state (removeExpiredItems (cache3_k Sprintf_f32 Sprintf_f64) 20).1 /\
    (forall k it,
       db (removeExpiredItems (cache3_k Sprintf_f32 Sprintf_f64) 20).1 !! k = Some it <->
       db (cache3_k Sprintf_f32 Sprintf_f64) !! k = Some it /\ (20 <= ExpiresAt it)%Z).
Proof.
  exists (fun _ => ""%string), (fun _ => ""%string).
  destruct (removeExpiredItems_removes_expired
              (cache3_k (fun _ => ""%string) (fun _ => ""%string)) 20
              (fresh_cache3_k _ _)) as (Hf & Hdb & _).
  split; [exact Hf|exact Hdb].
Defined.

(** [Set] of the new key "j" on the cache that holds "k". *)
Lemma LRU_Set_new_key_evicts_earliest_witness :
  exists (Sprintf_f32 Sprintf_f64 : PrimFloat.float -> string) l' calls,
    LRU_Set Sprintf_f32 Sprintf_f64 (cache3_k Sprintf_f32 Sprintf_f64)
      "j" (VInt 1) 10 2 = (l', calls, None) /\
    fresh_state l'.
Proof.
  exists (fun _ => ""%string), (fun _ => ""%string).
  destruct (LRU_Set_new_key_evicts_earliest
              (fun _ => ""%string) (fun _ => ""%string)
              (cache3_k (fun _ => ""%string) (fun _ => ""%string))
              "j" (VInt 1) 10 2 "1" (fresh_cache3_k _ _))
    as (l' & calls & Hset & Hf & _).
  - by vm_compute.
  - discriminate.
  - lia.
  - reflexivity.
  - by vm_compute.
  - exists l', calls. split; [exact Hset|exact Hf].
Defined.

Lemma reachable_Len_le_size_witness :
  exists Sprintf_f32 Sprintf_f64 : PrimFloat.float -> string,
    (Z.of_nat (LRU_Len (cache3_k Sprintf_f32 Sprintf_f64)) <=
       size (cache3_k Sprintf_f32 Sprintf_f64))%Z.
Proof.
  exists (fun _ => ""%string), (fun _ => ""%string).
  destruct (reachable_Len_le_size
              (fun _ => ""%string) (fun _ => ""%string) (fun _ => None) (fun _ => None)
              (cache3_k (fun _ => ""%string) (fun _ => ""%string))
              (reachable_cache3_k _ _ _ _)) as (_ & _ & H).
  exact H.
Defined.

Lemma LRU_Set_evicts_at_most_one_witness :
  exists (Sprintf_f32 Sprintf_f64 : PrimFloat.float -> string) data,
    serialize Sprintf_f32 Sprintf_f64 (VInt 7) = Some data /\
    db (cache3_k Sprintf_f32 Sprintf_f64) =
      <["k"%string := {| Key := "k"; Value := data; ExpiresAt := 1 + 10 |}]>
        (db cache3).
Proof.
  exists (fun _ => ""%string), (fun _ => ""%string).
  destruct (LRU_Set_evicts_at_most_one
              (fun _ => ""%string) (fun _ => ""%string) (fun _ => None) (fun _ => None)
              cache3 "k" (VInt 7) 10 1
              (cache3_k (fun _ => ""%string) (fun _ => ""%string)) [])
    as (data & Hser & Hcases).
  - by apply (reachable_new _ _ _ _ 3 (opts cache3)).
  - by vm_compute.
  - exists data. split; [exact Hser|].
    destruct Hcases as [(_ & Hdb & _)|(Hfull & _)]; [exact Hdb|discriminate Hfull].
Defined.

Lemma LRU_Clear_empties_witness :
  exists (Sprintf_f32 Sprintf_f64 : PrimFloat.float -> string) l',
    LRU_Clear (cache3_k Sprintf_f32 Sprintf_f64) = (l', [], None) /\
    db l' = ∅ /\ LRU_Len l' = 0.
Proof.
  exists (fun _ => ""%string), (fun _ => ""%string).
  destruct (LRU_Clear_empties
              (fun _ => ""%string) (fun _ => ""%string) (fun _ => None) (fun _ => None)
              (cache3_k (fun _ => ""%string) (fun _ => ""%string))
              (reachable_cache3_k _ _ _ _))
    as (l' & Hc & Hdb & _ & _ & _ & _ & Hlen & _).
  exists l'. split_and!; [exact Hc|exact Hdb|exact Hlen].
Defined.

Lemma LRU_Delete_then_Get_not_found_witness :
  exists Sprintf_f32 Sprintf_f64 ParseFloat json_Unmarshal,
    LRU_Get ParseFloat json_Unmarshal
      (LRU_Delete (cache3_k Sprintf_f32 Sprintf_f64) "k").1.1 "k" 5 =
    ((LRU_Delete (cache3_k Sprintf_f32 Sprintf_f64) "k").1.1, [],
     inr ErrItemNotFound).
Proof.
  exists (fun _ => ""%string), (fun _ => ""%string), (fun _ => None), (fun _ => None).
  destruct (LRU_Delete_then_Get_not_found
              (fun _ => ""%string) (fun _ => ""%string) (fun _ => None) (fun _ => None)
              (cache3_k (fun _ => ""%string) (fun _ => ""%string)) "k" 5
              (reachable_cache3_k _ _ _ _)) as [H _].
  exact H.
Defined.

Lemma reachable_store_matches_expiresAt_witness :
  exists Sprintf_f32 Sprintf_f64 : PrimFloat.float -> string,
    forall k, is_Some (db (cache3_k Sprintf_f32 Sprintf_f64) !! k) <->
              is_Some (expiresAt (expHeap (cache3_k Sprintf_f32 Sprintf_f64)) !! k).
Proof.
  exists (fun _ => ""%string), (fun _ => ""%string).
  destruct (reachable_store_matches_expiresAt
              (fun _ => ""%string) (fun _ => ""%string) (fun _ => None) (fun _ => None)
              (cache3_k (fun _ => ""%string) (fun _ => ""%string))
              (reachable_cache3_k _ _ _ _)) as [H _].
  exact H.
Defined.

Lemma serde_int_round_trip_witness :
  exists Sprintf_f32 Sprintf_f64 ParseFloat json_Unmarshal data,
    serialize Sprintf_f32 Sprintf_f64 (VInt64 (-42)) = Some data /\
    deserialize ParseFloat json_Unmarshal data = inl (VInt (-42)).
Proof.
  exists (fun _ => ""%string), (fun _ => ""%string), (fun _ => None), (fun _ => None).
  apply (serde_int_round_trip
           (fun _ => ""%string) (fun _ => ""%string) (fun _ => None) (fun _ => None)
           (-42)%Z (VInt64 (-42))).
  - split; by vm_compute.
  - by repeat constructor.
Defined.

Lemma serde_bool_round_trip_witness :
  exists Sprintf_f32 Sprintf_f64 ParseFloat json_Unmarshal data,
    serialize Sprintf_f32 Sprintf_f64 (VBool true) = Some data /\
    deserialize ParseFloat json_Unmarshal data = inl (VBool true).
Proof.
  exists (fun _ => ""%string), (fun _ => ""%string), (fun _ => None), (fun _ => None).
  apply (serde_bool_round_trip
           (fun _ => ""%string) (fun _ => ""%string) (fun _ => None) (fun _ => None)
           true); reflexivity.
Defined.

(** Capacity 4 and [Set] on key1 .. key4: nothing is evicted. *)
Lemma sets_within_capacity_all_retrievable_witness :
  exists Sprintf_f32 Sprintf_f64 l,
    set_all Sprintf_f32 Sprintf_f64 cache4 four_sets =
      (l, [], [None; None; None; None]) /\
    LRU_Len l = 4.
Proof.
  exists (fun _ => ""%string), (fun _ => ""%string).
  destruct (sets_within_capacity_all_retrievable
              (fun _ => ""%string) (fun _ => ""%string) (fun _ => None) (fun _ => None)
              4%Z (opts cache4) cache4 four_sets)
    as (l & Hall & Hlen & _).
  - reflexivity.
  - by vm_compute.
  - apply (bool_decide_unpack _). by vm_compute.
  - repeat constructor; try discriminate; by eexists.
  - exists l. split; [exact Hall|exact Hlen].
Defined.

(** [Get] of an expired key on a cache without a callback. *)
Lemma no_callback_no_calls_witness :
  exists Sprintf_f32 Sprintf_f64 ParseFloat json_Unmarshal,
    (run Sprintf_f32 Sprintf_f64 ParseFloat json_Unmarshal
       (LRU_Set Sprintf_f32 Sprintf_f64 cache3_no_callback "k" (VInt 7) 10 1).1.1
       (OpGet "k") 20).2 = [].
Proof.
  exists (fun _ => ""%string), (fun _ => ""%string), (fun _ => None), (fun _ => None).
  apply (no_callback_no_calls
           (fun _ => ""%string) (fun _ => ""%string) (fun _ => None) (fun _ => None)).
  by vm_compute.
Defined.
